(** * AugView: pipeline tracking, execution engine and synchronisation hub

    A shallow embedding of [augview/core.py], [augview/server.py] and the
    adapters of [augview/transforms.py].

    - Python values that reach parameter dictionaries are the inductive
      [Value]; Python floats are IEEE binary64 numbers ([PrimFloat.float]).
    - Python dictionaries keyed by strings are [gmap string _].
    - numpy, PIL, [uuid] and the [float] builtin are external to the
      repository: the operations the code calls on them are the fields of
      the class [Runtime].  The code of the repository is translated over
      that interface; a small instance ([Mini]) is used to run it.
    - Exceptions are explicit: an external operation returns [None] when it
      raises; methods run in a state monad whose state survives a raise.
    - A transform may write into the array it is handed: what its call
      leaves there is part of the transform, and the variable that holds
      the array is rebound to it. *)

From Stdlib Require Import ZArith Ascii String List Bool.
From Stdlib Require Import Floats.PrimFloat.
From Stdlib Require Import Uint63.
From stdpp Require Import base option list gmap strings.

Set Warnings "-inexact-float,-register-all".

Open Scope string_scope.

(** ** Python values *)

(** Values that may be stored as attributes of a transform, appear as
    constructor defaults, or arrive as JSON in a command. *)
Inductive Value : Type :=
| VNone
| VBool (b : bool)
| VInt (z : Z)
| VFloat (f : float)
| VStr (s : string)
| VTuple (items : list Value)
| VList (items : list Value)
| VCallable                 (* functions and bound methods *)
| VType                     (* classes *)
| VArray                    (* a numpy array with more than one element *)
| VObject (repr : string).  (* any other object: dict, enum member, ... *)

(** [callable(value)] *)
Definition callable (v : Value) : bool :=
  match v with VCallable | VType => true | _ => false end.

(** [isinstance(value, type)] *)
Definition isinstance_type (v : Value) : bool :=
  match v with VType => true | _ => false end.

(** [isinstance(value, (int, float, bool, str, tuple, list))] *)
Definition isinstance_serializable (v : Value) : bool :=
  match v with
  | VBool _ | VInt _ | VFloat _ | VStr _ | VTuple _ | VList _ => true
  | _ => false
  end.

(** [max(1.0, x)] on floats: Python keeps the first argument unless the
    second compares strictly greater. *)
Definition py_max_float (a b : float) : float :=
  if PrimFloat.ltb a b then b else a.

(** [attr.startswith('_')] *)
Definition startswith_underscore (s : string) : bool :=
  match s with
  | String c _ => if Ascii.ascii_dec c "_"%char then true else false
  | EmptyString => false
  end.

(** [needle in haystack] on strings *)
Definition str_contains (needle haystack : string) : bool :=
  match String.index 0 needle haystack with Some _ => true | None => false end.

(** ** Constructor signatures: [inspect.signature(cls.__init__)] *)

(** The annotations [_extract_param_specs] distinguishes. *)
Inductive Annotation : Type :=
| AnnoEmpty           (* inspect.Parameter.empty *)
| AnnoFloat | AnnoOptionalFloat
| AnnoInt | AnnoOptionalInt
| AnnoBool
| AnnoOther.

(** One entry of [sig.parameters]; [param_default = None] stands for
    [inspect.Parameter.empty]. *)
Record Param : Type := mkParam {
  param_name : string;
  param_annotation : Annotation;
  param_default : option Value;
}.

(** ** Parameter specifications *)

(** The dictionary built for one parameter, lines 168-215 of core.py.
    [None]: the comparison [param.default != inspect.Parameter.empty]
    has no truth value (numpy array default) and raises. *)
Definition spec_of_parameter (param : Param) : option (gmap string Value) :=
  let spec : gmap string Value :=
    <["type" := VStr "unknown"]> (<["name" := VStr (param_name param)]> ∅) in
  let spec :=
    if String.eqb (param_name param) "p" then
      <["is_probability" := VBool true]>
        (<["label" := VStr "Probability"]>
          (<["step" := VFloat 0.05]>
            (<["max" := VFloat 1.0]>
              (<["min" := VFloat 0.0]>
                (<["type" := VStr "float"]> spec)))))
    else
      match param_annotation param with
      | AnnoEmpty => spec
      | AnnoFloat | AnnoOptionalFloat =>
          <["step" := VFloat 0.01]>
            (<["max" := VFloat 1.0]>
              (<["min" := VFloat 0.0]>
                (<["type" := VStr "float"]> spec)))
      | AnnoInt | AnnoOptionalInt =>
          <["step" := VInt 1]>
            (<["max" := VInt 100]>
              (<["min" := VInt 0]>
                (<["type" := VStr "int"]> spec)))
      | AnnoBool => <["type" := VStr "bool"]> spec
      | AnnoOther => spec
      end in
  match param_default param with
  | None => Some spec
  | Some VArray => None
  | Some d =>
      let spec := <["default" := d]> spec in
      Some
        match d with
        | VFloat f =>
            <["step" := VFloat 0.01]>
              (<["max" := VFloat (py_max_float 1.0 (PrimFloat.mul f 2))]>
                (<["min" := VFloat 0.0]>
                  (<["type" := VStr "float"]> spec)))
        | VInt z =>
            <["step" := VInt 1]>
              (<["max" := VInt (Z.max 100 (z * 2))]>
                (<["min" := VInt 0]>
                  (<["type" := VStr "int"]> spec)))
        | VBool _ => <["type" := VStr "bool"]> spec
        | VTuple [lo; hi] =>
            <["max" := hi]> (<["min" := lo]> (<["type" := VStr "range"]> spec))
        | _ => spec
        end
  end.

(** One field of the specification of one parameter. *)
Definition spec_entry (specs : gmap string (gmap string Value))
    (param field : string) : option Value :=
  spec ← specs !! param; spec !! field.

(** [param_name in ('self', 'args', 'kwargs')] *)
Definition skipped_name (n : string) : bool :=
  String.eqb n "self" || String.eqb n "args" || String.eqb n "kwargs".

(** The loop of [_extract_param_specs] over [sig.parameters.items()].  A
    raise inside the loop is caught by the enclosing [except Exception:
    pass], which returns what was collected so far. *)
Fixpoint extract_loop (ps : list Param)
    (specs : gmap string (gmap string Value)) : gmap string (gmap string Value) :=
  match ps with
  | [] => specs
  | param :: rest =>
      if skipped_name (param_name param) then extract_loop rest specs
      else
        match spec_of_parameter param with
        | None => specs
        | Some spec => extract_loop rest (<[param_name param := spec]> specs)
        end
  end.

(** ** The external runtime: numpy, PIL, uuid, float() *)

(** What the code asks of the libraries it imports.  [Obj] is the type of
    the objects bound to image variables ([image], [current_image],
    [result]): numpy arrays, PIL images, dictionaries returned by a
    transform, or anything else a transform hands back.  Objects are values;
    no operation of the libraries modifies its arguments (what a transform
    writes into the array it is handed is the field [writes] of
    [Transform]).  An operation returns [None] when the Python call raises.  [Rand] is the ambient state that
    random transforms and [uuid.uuid4] draw from. *)
Class Runtime : Type := {
  Obj : Type;
  Rand : Type;
  (** [isinstance(x, np.ndarray)], [isinstance(x, Image.Image)],
      [isinstance(x, dict)], [hasattr(x, 'numpy')], [hasattr(x, 'copy')] *)
  isinstance_ndarray : Obj -> bool;
  isinstance_Image : Obj -> bool;
  isinstance_dict : Obj -> bool;
  hasattr_numpy : Obj -> bool;
  hasattr_copy : Obj -> bool;
  (** [x.shape] *)
  shape : Obj -> option (list nat);
  (** [x.dtype != np.uint8], negated *)
  dtype_is_uint8 : Obj -> option bool;
  (** [x.max() <= 1.0] *)
  max_le_1 : Obj -> option bool;
  (** [(x * 255).astype(np.uint8)] and [x.astype(np.uint8)] *)
  scale255_uint8 : Obj -> option Obj;
  astype_uint8 : Obj -> option Obj;
  (** [np.stack([x] * 3, axis=-1)], [np.repeat(x, 3, axis=-1)],
      [x[:, :, :3]] *)
  stack3 : Obj -> option Obj;
  repeat3 : Obj -> option Obj;
  take3 : Obj -> option Obj;
  (** [np.array(x)], [x.numpy()], [Image.fromarray(x)] *)
  np_array : Obj -> option Obj;
  call_numpy : Obj -> option Obj;
  Image_fromarray : Obj -> option Obj;
  (** [x.get("image", dflt)] *)
  get_image : Obj -> Obj -> option Obj;
  (** [x.save(buffer, format="PNG")] followed by
      [base64.b64encode(buffer.getvalue()).decode("utf-8")] *)
  save_png_b64 : Obj -> option string;
  (** [Image.open(io.BytesIO(base64.b64decode(s)))] *)
  open_png_b64 : string -> option Obj;
  (** [np.abs(a.astype(float) - b.astype(float)).mean() > 0.5] *)
  mean_abs_diff_gt_half : Obj -> Obj -> option bool;
  (** [str(uuid.uuid4())] *)
  uuid4 : Rand -> string * Rand;
  (** [float(v)] for a value that is neither a float nor a bool *)
  float_conv : Value -> option float;
}.

(** ** Results of calls that may raise *)

Inductive Result (A : Type) : Type :=
| Ok (a : A)
| Raise.
Arguments Ok {A} a.
Arguments Raise {A}.

Section Core.
Context `{RT : Runtime}.

(** ** Transforms *)

(** [getattr(transform, attr)] either yields a value or raises. *)
Inductive Attr : Type :=
| AttrRaises
| AttrValue (v : Value).

(** A transform object as the code sees it: its class, the signature of
    its constructor ([None] when [inspect.signature] raises), the public
    and private names [dir] lists with what [getattr] gives for each,
    whether [setattr] raises, what calling it returns ([None]: raises),
    and what the call, returning or raising, leaves in the array it was
    handed (the array as it was, for a transform that does not write into
    its argument). *)
Record Transform : Type := mkTransform {
  class_name : string;
  t_module : string;
  init_signature : option (list Param);
  attrs : gmap string Attr;
  rejects : string -> Value -> bool;
  call : gmap string Attr -> Obj -> Rand -> option Obj * Rand;
  writes : gmap string Attr -> Obj -> Rand -> Obj;
}.

(** [setattr(transform, name, value)] *)
Definition setattr (transform : Transform) (name : string) (value : Value)
  : option Transform :=
  if rejects transform name value then None
  else Some (mkTransform (class_name transform) (t_module transform)
               (init_signature transform)
               (<[name := AttrValue value]> (attrs transform))
               (rejects transform) (call transform) (writes transform)).

(** [float(v)] *)
Definition py_float (v : Value) : option float :=
  match v with
  | VFloat f => Some f
  | VBool b => Some (if b then 1 else 0)%float
  | _ => float_conv v
  end.

(** ** Data model *)

Record TransformStep : Type := mkStep {
  step_id : string;
  step_name : string;
  transform_type : string;
  params : gmap string Value;
  param_specs : gmap string (gmap string Value);
  input_image : option string;
  output_image : option string;
  enabled : bool;
  applied : bool;
  probability : option float;
}.

Definition set_input_image (b : option string) (s : TransformStep) : TransformStep :=
  mkStep (step_id s) (step_name s) (transform_type s) (params s) (param_specs s)
    b (output_image s) (enabled s) (applied s) (probability s).
Definition set_output_image (b : option string) (s : TransformStep) : TransformStep :=
  mkStep (step_id s) (step_name s) (transform_type s) (params s) (param_specs s)
    (input_image s) b (enabled s) (applied s) (probability s).
Definition set_applied (a : bool) (s : TransformStep) : TransformStep :=
  mkStep (step_id s) (step_name s) (transform_type s) (params s) (param_specs s)
    (input_image s) (output_image s) (enabled s) a (probability s).
Definition set_enabled (e : bool) (s : TransformStep) : TransformStep :=
  mkStep (step_id s) (step_name s) (transform_type s) (params s) (param_specs s)
    (input_image s) (output_image s) e (applied s) (probability s).
Definition set_param (k : string) (v : Value) (s : TransformStep) : TransformStep :=
  mkStep (step_id s) (step_name s) (transform_type s) (<[k := v]> (params s))
    (param_specs s) (input_image s) (output_image s) (enabled s) (applied s)
    (probability s).
Definition set_probability (p : option float) (s : TransformStep) : TransformStep :=
  mkStep (step_id s) (step_name s) (transform_type s) (params s) (param_specs s)
    (input_image s) (output_image s) (enabled s) (applied s) p.

(** The [Pipeline] object, as handed to callbacks and serialised by
    [to_dict]. *)
Record Pipeline : Type := mkPipeline {
  p_id : string;
  p_name : string;
  steps : list TransformStep;
  p_original_image : option string;
  p_final_image : option string;
}.

(** A registered update callback receives the pipeline.  The one callback
    the repository registers ([start_server]) schedules a
    [broadcast_update] task on the event loop; the pending tasks are the
    list of their [pipeline_data] arguments.  [None]: the callback raises. *)
Definition Callback : Type := Pipeline -> list Pipeline -> option (list Pipeline).

(** The state of an [AugView] object.  [self.pipeline.steps] and
    [self._transforms] are appended to together and hold the same step
    objects, so one list is kept: [_transforms], whose second components
    are the steps of the pipeline. *)
Record AugView : Type := mkAugView {
  viewer_name : string;
  pipeline_id : string;
  pipeline_name : string;
  original_image : option string;
  final_image : option string;
  _transforms : list (Transform * TransformStep);
  _update_callbacks : list Callback;
  _last_image : option Obj;
}.

(** [output_image] of the last step of the pipeline. *)
Definition last_output (p : Pipeline) : option string :=
  step ← last (steps p); output_image step.

(** [self.pipeline] *)
Definition pipeline (v : AugView) : Pipeline :=
  mkPipeline (pipeline_id v) (pipeline_name v) (snd <$> _transforms v)
    (original_image v) (final_image v).

Definition set_transforms (ts : list (Transform * TransformStep)) (v : AugView) : AugView :=
  mkAugView (viewer_name v) (pipeline_id v) (pipeline_name v) (original_image v)
    (final_image v) ts (_update_callbacks v) (_last_image v).
Definition set_original_image (b : option string) (v : AugView) : AugView :=
  mkAugView (viewer_name v) (pipeline_id v) (pipeline_name v) b
    (final_image v) (_transforms v) (_update_callbacks v) (_last_image v).
Definition set_final_image (b : option string) (v : AugView) : AugView :=
  mkAugView (viewer_name v) (pipeline_id v) (pipeline_name v) (original_image v)
    b (_transforms v) (_update_callbacks v) (_last_image v).
Definition set_last_image (o : option Obj) (v : AugView) : AugView :=
  mkAugView (viewer_name v) (pipeline_id v) (pipeline_name v) (original_image v)
    (final_image v) (_transforms v) (_update_callbacks v) o.
Definition set_callbacks (cbs : list Callback) (v : AugView) : AugView :=
  mkAugView (viewer_name v) (pipeline_id v) (pipeline_name v) (original_image v)
    (final_image v) (_transforms v) cbs (_last_image v).

(** ** The method monad *)

(** What a method of [AugView] can read and write: the object itself, the
    ambient random state, and the tasks pending on the event loop. *)
Record State : Type := mkState {
  self : AugView;
  rng : Rand;
  tasks : list Pipeline;
}.

(** A method call: the state survives a raise. *)
Definition M (A : Type) : Type := State -> Result A * State.

Definition ret {A} (a : A) : M A := fun st => (Ok a, st).
Definition raise {A} : M A := fun st => (Raise, st).
Definition bind {A B} (m : M A) (k : A -> M B) : M B :=
  fun st => match m st with
            | (Ok a, st') => k a st'
            | (Raise, st') => (Raise, st')
            end.
(** [try: m  except Exception: h] *)
Definition try_except {A} (m : M A) (h : M A) : M A :=
  fun st => match m st with
            | (Ok a, st') => (Ok a, st')
            | (Raise, st') => h st'
            end.
(** an external call that may raise *)
Definition lift {A} (o : option A) : M A :=
  match o with Some a => ret a | None => raise end.
Definition get_self : M AugView := fun st => (Ok (self st), st).
Definition modify_self (f : AugView -> AugView) : M unit :=
  fun st => (Ok tt, mkState (f (self st)) (rng st) (tasks st)).

End Core.

Declare Scope method_scope.
Delimit Scope method_scope with method.
Notation "x <- m ;; k" := (bind m (fun x => k))
  (at level 100, m at next level, right associativity) : method_scope.
Notation "m ;;; k" := (bind m (fun _ => k))
  (at level 100, right associativity) : method_scope.

Section Methods.
Context `{RT : Runtime}.
Local Open Scope method_scope.

(** [AugView.register_callback] *)
Definition register_callback (callback : Callback) : M unit :=
  modify_self
    (fun v => set_callbacks (_update_callbacks v ++ [callback])%list v).

(** ** Image encoding (static methods of [AugView]) *)

(** [AugView.image_to_base64] *)
Definition image_to_base64 (image : Obj) : option string :=
  if isinstance_ndarray image then
    sh ← shape image;
    image ← (if (length sh =? 2)%nat then stack3 image
             else
               d ← last sh;
               if (d =? 4)%nat then take3 image else Some image);
    image ← astype_uint8 image;
    image ← Image_fromarray image;
    save_png_b64 image
  else save_png_b64 image.

(** [AugView.base64_to_image] *)
Definition base64_to_image (b64_string : string) : option Obj :=
  image ← open_png_b64 b64_string;
  np_array image.

(** ** Introspection *)

(** [AugView._extract_param_specs] *)
Definition _extract_param_specs (transform : Transform)
  : gmap string (gmap string Value) :=
  match init_signature transform with
  | None => ∅
  | Some ps => extract_loop ps ∅
  end.

(** [AugView._get_transform_params] *)
Definition _get_transform_params (transform : Transform) : gmap string Value :=
  map_imap
    (fun attr a =>
       if startswith_underscore attr then None
       else
         match a with
         | AttrRaises => None
         | AttrValue value =>
             if negb (callable value) && negb (isinstance_type value)
                && isinstance_serializable value
             then Some value else None
         end)
    (attrs transform).

(** [AugView._get_probability]: [hasattr(transform, 'p')] then
    [float(transform.p)], which may raise. *)
Definition _get_probability (transform : Transform) : option (option float) :=
  match attrs transform !! "p" with
  | Some (AttrValue v) => f ← py_float v; Some (Some f)
  | _ => Some None
  end.

(** [name or class_name] *)
Definition name_or (name : option string) (class_name : string) : string :=
  match name with
  | Some n => if String.eqb n "" then class_name else n
  | None => class_name
  end.

(** [AugView.add_transform] *)
Definition add_transform (transform : Transform) (name : option string)
  : M TransformStep :=
  let transform_type :=
    if str_contains "albumentations" (t_module transform) then "albumentations"
    else if str_contains "torchvision" (t_module transform) then "torchvision"
    else "custom" in
  probability <- lift (_get_probability transform) ;;
  fun st =>
    let '(new_id, rng') := uuid4 (rng st) in
    let step :=
      mkStep new_id (name_or name (class_name transform)) transform_type
        (_get_transform_params transform) (_extract_param_specs transform)
        None None true true probability in
    (Ok step,
     mkState (set_transforms (_transforms (self st) ++ [(transform, step)]) (self st))
       rng' (tasks st)).

(** ** Execution *)

(** [x.copy()]: a new array with the same content.  Objects are values,
    so the copy is the value itself; the variable that holds the original
    is rebound when a transform writes into it, the copy is not. *)
Definition copy (x : Obj) : option Obj :=
  if hasattr_copy x then Some x else None.

(** [AugView._check_transform_applied] *)
Definition _check_transform_applied (input_img output_img : Obj) : option bool :=
  si ← shape input_img;
  so ← shape output_img;
  if negb (bool_decide (si = so)) then Some true
  else mean_abs_diff_gt_half input_img output_img.

(** Lines 321-338 of [process_image]: what the array bound to
    [current_image] holds once the transform was called.  The transform is
    handed that very array, except for the kind ["torchvision"], which is
    handed the PIL image made from it. *)
Definition left_in_place (transform : Transform) (step : TransformStep)
    (current_image : Obj) (r : Rand) : Obj :=
  if String.eqb (transform_type step) "albumentations" then
    writes transform (attrs transform) current_image r
  else if String.eqb (transform_type step) "torchvision" then current_image
  else writes transform (attrs transform) current_image r.

(** Lines 321-338 of [process_image]: the call convention of the step's
    kind.  The result is the value assigned to [current_image]; [None]
    when something raises before the assignment. *)
Definition call_transform (transform : Transform) (step : TransformStep)
    (current_image : Obj) (r : Rand) : option Obj * Rand :=
  if String.eqb (transform_type step) "albumentations" then
    match call transform (attrs transform) current_image r with
    | (Some result, r') =>
        (get_image result (writes transform (attrs transform) current_image r), r')
    | (None, r') => (None, r')
    end
  else if String.eqb (transform_type step) "torchvision" then
    match Image_fromarray current_image with
    | None => (None, r)
    | Some pil_image =>
        match call transform (attrs transform) pil_image r with
        | (Some result, r') =>
            (if hasattr_numpy result then call_numpy result else np_array result, r')
        | (None, r') => (None, r')
        end
    end
  else
    match call transform (attrs transform) current_image r with
    | (Some result, r') =>
        (if isinstance_dict result
         then get_image result (writes transform (attrs transform) current_image r)
         else Some result, r')
    | (None, r') => (None, r')
    end.

(** Lines 341-345: "ensure proper dtype". *)
Definition ensure_dtype (current_image : Obj) : option Obj :=
  u ← dtype_is_uint8 current_image;
  if u : bool then Some current_image
  else
    small ← max_le_1 current_image;
    if small : bool then scale255_uint8 current_image
    else astype_uint8 current_image.

(** Lines 348-353: "ensure 3 channels". *)
Definition ensure_channels (current_image : Obj) : option Obj :=
  sh ← shape current_image;
  if (length sh =? 2)%nat then stack3 current_image
  else if (length sh =? 3)%nat && bool_decide (last sh = Some 1%nat)
  then repeat3 current_image
  else if (length sh =? 3)%nat && bool_decide (last sh = Some 4%nat)
  then take3 current_image
  else Some current_image.

(** The body of the [try] of lines 319-358.  Returns what the [try]
    computed for [step.output_image] and [step.applied] ([None] when the
    [except] clause is entered), together with the value [current_image]
    holds afterwards: when the call raises, the array as the transform
    left it; otherwise the variable is reassigned as soon as the transform
    returned, before anything that follows may raise. *)
Definition try_body (transform : Transform) (step : TransformStep)
    (current_image input_for_comparison : Obj) (r : Rand)
  : option (string * bool) * Obj * Rand :=
  match call_transform transform step current_image r with
  | (None, r') => (None, left_in_place transform step current_image r, r')
  | (Some current_image, r') =>
      match ensure_dtype current_image with
      | None => (None, current_image, r')
      | Some current_image =>
          match ensure_channels current_image with
          | None => (None, current_image, r')
          | Some current_image =>
              match image_to_base64 current_image with
              | None => (None, current_image, r')
              | Some out =>
                  match _check_transform_applied input_for_comparison current_image with
                  | None => (None, current_image, r')
                  | Some a => (Some (out, a), current_image, r')
                  end
              end
          end
      end
  end.

(** One iteration of the loop of [process_image] (lines 308-363).  The
    middle component is the value of [current_image] after the iteration,
    or [None] when an exception leaves [process_image]. *)
Definition run_step (transform : Transform) (step : TransformStep)
    (current_image : Obj) (r : Rand) : TransformStep * option Obj * Rand :=
  if negb (enabled step) then
    match image_to_base64 current_image with
    | None => (step, None, r)
    | Some b_in =>
        let step := set_input_image (Some b_in) step in
        match image_to_base64 current_image with
        | None => (step, None, r)
        | Some b_out =>
            (set_applied false (set_output_image (Some b_out) step),
             Some current_image, r)
        end
    end
  else
    match image_to_base64 current_image with
    | None => (step, None, r)
    | Some b_in =>
        let step := set_input_image (Some b_in) step in
        match copy current_image with
        | None => (step, None, r)
        | Some input_for_comparison =>
            match try_body transform step current_image input_for_comparison r with
            | (Some (out, a), current_image, r') =>
                (set_applied a (set_output_image (Some out) step),
                 Some current_image, r')
            | (None, current_image, r') =>
                (set_applied false (set_output_image (input_image step) step),
                 Some current_image, r')
            end
        end
    end.

(** The loop [for transform, step in self._transforms]. *)
Fixpoint run_steps (ts : list (Transform * TransformStep)) (current_image : Obj)
    (r : Rand) : list (Transform * TransformStep) * option Obj * Rand :=
  match ts with
  | [] => ([], Some current_image, r)
  | (transform, step) :: rest =>
      match run_step transform step current_image r with
      | (step', None, r') => ((transform, step') :: rest, None, r')
      | (step', Some current_image, r') =>
          let '(rest', res, r'') := run_steps rest current_image r' in
          ((transform, step') :: rest', res, r'')
      end
  end.

(** The callbacks of a viewer called in turn on its pipeline: a callback
    that raises is reported and skipped. *)
Definition notify_all (v : AugView) (pending : list Pipeline) : list Pipeline :=
  foldl (fun pending callback =>
           match callback (pipeline v) pending with
           | Some pending' => pending'
           | None => pending
           end)
    pending (_update_callbacks v).

(** [AugView._notify_update] *)
Definition _notify_update : M unit :=
  fun st => (Ok tt, mkState (self st) (rng st) (notify_all (self st) (tasks st))).

(** The loop inside the method: the steps are written in place, and an
    exception that leaves the loop leaves the method. *)
Definition run_loop (current_image : Obj) : M Obj :=
  fun st =>
    let '(ts', res, r') := run_steps (_transforms (self st)) current_image (rng st) in
    let st' := mkState (set_transforms ts' (self st)) r' (tasks st) in
    match res with
    | Some current_image => (Ok current_image, st')
    | None => (Raise, st')
    end.

(** [AugView.process_image] *)
Definition process_image (image : Obj) : M Obj :=
  image <- lift (if isinstance_Image image then np_array image else Some image) ;;
  last <- lift (copy image) ;;
  modify_self (set_last_image (Some last)) ;;;
  b <- lift (image_to_base64 image) ;;
  modify_self (set_original_image (Some b)) ;;;
  current_image <- lift (copy image) ;;
  current_image <- run_loop current_image ;;
  b <- lift (image_to_base64 current_image) ;;
  modify_self (set_final_image (Some b)) ;;;
  _notify_update ;;;
  ret current_image.

(** Truth value of an [Optional[str]] *)
Definition truthy (o : option string) : bool :=
  match o with
  | Some s => negb (String.eqb s "")
  | None => false
  end.

(** [AugView.rerun] *)
Definition rerun : M (option Obj) :=
  v <- get_self ;;
  match _last_image v with
  | Some last => out <- process_image last ;; ret (Some out)
  | None =>
      if truthy (original_image v) then
        image <- lift (from_option base64_to_image None (original_image v)) ;;
        out <- process_image image ;; ret (Some out)
      else ret None
  end.

(** ** Mutation *)

(** Position of the first entry of [_transforms] whose step has the given
    id: where [for transform, step in self._transforms: if step.id ==
    step_id] stops. *)
Fixpoint find_step (ts : list (Transform * TransformStep)) (sid : string)
  : option nat :=
  match ts with
  | [] => None
  | (_, step) :: rest =>
      if String.eqb (step_id step) sid then Some 0%nat
      else S <$> find_step rest sid
  end.

(** In-place mutation of the transform and of the step at a position. *)
Definition modify_entry (i : nat)
    (f : Transform * TransformStep -> Transform * TransformStep) : M unit :=
  modify_self (fun v => set_transforms (alter f i (_transforms v)) v).

(** [setattr(transform, param_name, value)] on the transform of the entry
    at a position, in place. *)
Definition setattr_entry (i : nat) (param_name : string) (value : Value) : M unit :=
  fun st =>
    match _transforms (self st) !! i with
    | Some (transform, step) =>
        match setattr transform param_name value with
        | Some transform' =>
            (Ok tt,
             mkState
               (set_transforms (<[i := (transform', step)]> (_transforms (self st)))
                  (self st))
               (rng st) (tasks st))
        | None => (Raise, st)
        end
    | None => (Raise, st)
    end.

(** [AugView.update_step_param] *)
Definition update_step_param (sid param_name : string) (value : Value) : M bool :=
  v <- get_self ;;
  match find_step (_transforms v) sid with
  | None => ret false
  | Some i =>
      try_except
        (setattr_entry i param_name value ;;;
         modify_entry i (fun e => (fst e, set_param param_name value (snd e))) ;;;
         (if String.eqb param_name "p" then
            f <- lift (py_float value) ;;
            modify_entry i (fun e => (fst e, set_probability (Some f) (snd e)))
          else ret tt) ;;;
         rerun ;;;
         ret true)
        (ret false)
  end.

(** [AugView.toggle_step] *)
Definition toggle_step (sid : string) (en : bool) : M bool :=
  v <- get_self ;;
  match find_step (_transforms v) sid with
  | None => ret false
  | Some i =>
      modify_entry i (fun e => (fst e, set_enabled en (snd e))) ;;;
      rerun ;;;
      ret true
  end.

End Methods.

(** ** The server ([augview/server.py]) *)

Section Server.
Context `{RT : Runtime}.
Local Open Scope method_scope.

(** A WebSocket connection, by identity. *)
Definition WebSocket : Type := nat.

(** The module-level state of the server and what surrounds it:
    [connected_clients]; the viewer that [_server_viewer or
    get_current_viewer()] resolves to; the ambient random state; the
    [broadcast_update] tasks created on the event loop and not yet run;
    the sockets whose [send_text] raises; and the [pipeline_update]
    messages handed to [send_text] so far, with their [data]. *)
Record Server : Type := mkServer {
  connected_clients : gset WebSocket;
  viewer : option AugView;
  ambient : Rand;
  pending : list Pipeline;
  broken : gset WebSocket;
  sent : list (WebSocket * Pipeline);
}.

(** [Pipeline.to_dict]: the snapshot carries every field of the pipeline
    and of its steps; it is represented by the pipeline value. *)
Definition to_dict (p : Pipeline) : Pipeline := p.

(** The callback [start_server] registers:
    [lambda p: asyncio.create_task(broadcast_update(p.to_dict()))]. *)
Definition broadcast_callback : Callback :=
  fun p pending => Some (pending ++ [to_dict p])%list.

(** [start_server], up to the call of [uvicorn.run]: the callback is
    registered on the viewer the server will serve. *)
Definition start_server (srv : Server) : Server :=
  match viewer srv with
  | Some v =>
      mkServer (connected_clients srv)
        (Some (set_callbacks (_update_callbacks v ++ [broadcast_callback])%list v))
        (ambient srv) (pending srv) (broken srv) (sent srv)
  | None => srv
  end.

(** [broadcast_update] *)
Definition broadcast_update (pipeline_data : Pipeline) (srv : Server) : Server :=
  if bool_decide (connected_clients srv = ∅) then srv
  else
    let clients := elements (connected_clients srv) in
    let disconnected := filter (fun c => c ∈ broken srv) clients in
    let delivered := filter (fun c => c ∉ broken srv) clients in
    mkServer (connected_clients srv ∖ list_to_set disconnected) (viewer srv)
      (ambient srv) (pending srv) (broken srv)
      (sent srv ++ ((fun c => (c, pipeline_data)) <$> delivered))%list.

(** The event loop runs the tasks created so far, oldest first, when the
    running handler next awaits. *)
Definition run_pending (srv : Server) : Server :=
  foldl (fun srv data => broadcast_update data srv)
    (mkServer (connected_clients srv) (viewer srv) (ambient srv) []
       (broken srv) (sent srv))
    (pending srv).

(** Run a method of the resolved viewer against the server state. *)
Definition on_viewer {A} (v : AugView) (m : M A) (srv : Server) : Result A * Server :=
  match m (mkState v (ambient srv) (pending srv)) with
  | (res, st) =>
      (res,
       mkServer (connected_clients srv) (Some (self st)) (rng st) (tasks st)
         (broken srv) (sent srv))
  end.

(** The JSON messages the endpoint reacts to; any other [type] is
    ignored. *)
Inductive Message : Type :=
| MsgUpdateParam (sid param_name : string) (value : Value)
| MsgToggleStep (sid : string) (en : bool)
| MsgRerun
| MsgOther.

(** One turn of the [while True] loop of [websocket_endpoint], after
    [receive_text] delivered [message]: lines 125-144. *)
Definition ws_message (message : Message) (srv : Server) : Result unit * Server :=
  match message, viewer srv with
  | MsgUpdateParam sid param_name value, Some v =>
      on_viewer v (update_step_param sid param_name value ;;; ret tt) srv
  | MsgToggleStep sid en, Some v =>
      on_viewer v (toggle_step sid en ;;; ret tt) srv
  | MsgRerun, Some v =>
      if truthy (original_image v) then
        on_viewer v
          (image <- lift (from_option base64_to_image None (original_image v)) ;;
           process_image image ;;; ret tt) srv
      else (Ok tt, srv)
  | _, _ => (Ok tt, srv)
  end.

(** Responses of the request/response surface. *)
Inductive HttpResponse : Type :=
| HttpOk                                   (* {"status": "ok"} *)
| HttpError (status : nat) (detail : string).

(** The loop of [update_step_params] over [params.items()]. *)
Fixpoint update_params_loop (sid : string) (items : list (string * Value))
  : M HttpResponse :=
  match items with
  | [] => ret HttpOk
  | (param_name, value) :: rest =>
      success <- update_step_param sid param_name value ;;
      if success : bool then update_params_loop sid rest
      else ret (HttpError 400 ("Failed to update " ++ param_name))
  end.

(** [PUT /api/step/{step_id}/params] *)
Definition update_step_params (sid : string) (items : list (string * Value))
    (srv : Server) : HttpResponse * Server :=
  match viewer srv with
  | None => (HttpError 404 "No pipeline registered", srv)
  | Some v =>
      match on_viewer v (update_params_loop sid items) srv with
      | (Ok resp, srv') => (resp, srv')
      | (Raise, srv') => (HttpError 500 "Internal Server Error", srv')
      end
  end.

End Server.

(** ** Wrapping a composed pipeline ([AugView.wrap_compose]) *)

Section Compose.
Context `{RT : Runtime}.
Local Open Scope method_scope.

(** What [compose.transform] is when [compose] has no [transforms]: an
    object that has [transforms] itself, or one transform. *)
Inductive Wrapped : Type :=
| WrappedCompose (transforms : list Transform)
| WrappedSingle (transform : Transform).

(** A composed pipeline as [wrap_compose] sees it: the attribute
    [transforms] and the attribute [transform], each [None] when
    [hasattr] is false. *)
Record Compose : Type := mkCompose {
  compose_transforms : option (list Transform);
  compose_transform : option Wrapped;
}.

(** Lines 276-282: the list the loop of [wrap_compose] runs over. *)
Definition transforms_of (compose : Compose) : list Transform :=
  match compose_transforms compose with
  | Some transforms => transforms
  | None =>
      match compose_transform compose with
      | Some (WrappedCompose transforms) => transforms
      | Some (WrappedSingle transform) => [transform]
      | None => []
      end
  end.

(** [for t in transforms: self.add_transform(t)] *)
Fixpoint add_each (transforms : list Transform) : M unit :=
  match transforms with
  | [] => ret tt
  | t :: rest => add_transform t None ;;; add_each rest
  end.

(** [AugView.wrap_compose] *)
Definition wrap_compose (compose : Compose) : M Compose :=
  add_each (transforms_of compose) ;;; ret compose.

End Compose.

(** ** The request/response surface ([augview/server.py], lines 150-244) *)

(** The body of an error response: [{"detail": <literal>}],
    [{"detail": str(e)}] for the exception caught, or [{"error":
    <literal>}]. *)
Inductive ErrorBody : Type :=
| Detail (s : string)
| DetailOfException
| ErrorField (s : string).

(** What a handler answers: its return value, an error response, or an
    exception that leaves the handler. *)
Inductive ApiResponse (A : Type) : Type :=
| ApiReturn (content : A)
| ApiError (status : nat) (body : ErrorBody)
| ApiUncaught.
Arguments ApiReturn {A} content.
Arguments ApiError {A} status body.
Arguments ApiUncaught {A}.

Section Endpoints.
Context `{RT : Runtime}.
Local Open Scope method_scope.

(** [TransformStep.to_dict]: the snapshot carries every field of the
    step; it is represented by the step value. *)
Definition step_to_dict (step : TransformStep) : TransformStep := step.

(** [GET /api/pipeline] *)
Definition get_pipeline (srv : Server) : ApiResponse Pipeline :=
  match viewer srv with
  | None => ApiError 404 (ErrorField "No pipeline registered")
  | Some v => ApiReturn (to_dict (pipeline v))
  end.

(** The loop of [get_step] over [viewer.pipeline.steps]. *)
Fixpoint step_loop (steps : list TransformStep) (sid : string)
  : ApiResponse TransformStep :=
  match steps with
  | [] => ApiError 404 (Detail "Step not found")
  | step :: rest =>
      if String.eqb (step_id step) sid then ApiReturn (step_to_dict step)
      else step_loop rest sid
  end.

(** [GET /api/step/{step_id}] *)
Definition get_step (sid : string) (srv : Server) : ApiResponse TransformStep :=
  match viewer srv with
  | None => ApiError 404 (Detail "No pipeline registered")
  | Some v => step_loop (steps (pipeline v)) sid
  end.

(** [PUT /api/step/{step_id}/toggle], the function [toggle_step] of
    server.py. *)
Definition api_toggle_step (sid : string) (en : bool) (srv : Server)
  : ApiResponse unit * Server :=
  match viewer srv with
  | None => (ApiError 404 (Detail "No pipeline registered"), srv)
  | Some v =>
      match on_viewer v (toggle_step sid en) srv with
      | (Ok true, srv') => (ApiReturn tt, srv')
      | (Ok false, srv') => (ApiError 404 (Detail "Step not found"), srv')
      | (Raise, srv') => (ApiUncaught, srv')
      end
  end.

(** [POST /api/upload].  The uploaded file is represented by the base64
    text of its bytes, so that [Image.open(io.BytesIO(contents))] is
    [open_png_b64]. *)
Definition upload_image (contents : string) (srv : Server)
  : ApiResponse Pipeline * Server :=
  match viewer srv with
  | None => (ApiError 404 (Detail "No pipeline registered"), srv)
  | Some v =>
      match on_viewer v
              (image <- lift (open_png_b64 contents) ;;
               image_array <- lift (np_array image) ;;
               process_image image_array ;;;
               v' <- get_self ;;
               ret (to_dict (pipeline v'))) srv with
      | (Ok p, srv') => (ApiReturn p, srv')
      | (Raise, srv') => (ApiError 400 DetailOfException, srv')
      end
  end.

(** [POST /api/rerun] *)
Definition rerun_pipeline (srv : Server) : ApiResponse Pipeline * Server :=
  match viewer srv with
  | None => (ApiError 404 (Detail "No pipeline registered"), srv)
  | Some v =>
      if negb (truthy (original_image v))
      then (ApiError 400 (Detail "No image loaded"), srv)
      else
        match on_viewer v
                (image <- lift (from_option base64_to_image None (original_image v)) ;;
                 process_image image ;;;
                 v' <- get_self ;;
                 ret (to_dict (pipeline v'))) srv with
        | (Ok p, srv') => (ApiReturn p, srv')
        | (Raise, srv') => (ApiError 500 DetailOfException, srv')
        end
  end.

End Endpoints.

(** ** The adapters ([augview/transforms.py]) *)

Module BaseAdapter.
Section Defs.
Context `{RT : Runtime}.

(** [BaseAdapter._extract_params] *)
Definition _extract_params (transform : Transform) : gmap string Value :=
  map_imap
    (fun attr a =>
       if negb (startswith_underscore attr) then
         match a with
         | AttrRaises => None
         | AttrValue value =>
             if negb (callable value) && isinstance_serializable value
             then Some value else None
         end
       else None)
    (attrs transform).

End Defs.
End BaseAdapter.

Module AlbumentationsAdapter.
Section Defs.
Context `{RT : Runtime}.

(** [AlbumentationsAdapter.apply]: [None] when something raises. *)
Definition apply (transform : Transform) (image : Obj) (r : Rand)
  : option Obj * Rand :=
  match call transform (attrs transform) image r with
  | (Some result, r') =>
      (get_image result (writes transform (attrs transform) image r), r')
  | (None, r') => (None, r')
  end.

End Defs.
End AlbumentationsAdapter.

Module CustomAdapter.
Section Defs.
Context `{RT : Runtime}.

(** [CustomAdapter.apply]: [None] when something raises. *)
Definition apply (transform : Transform) (image : Obj) (r : Rand)
  : option Obj * Rand :=
  match call transform (attrs transform) image r with
  | (Some result, r') =>
      (if isinstance_dict result
       then get_image result (writes transform (attrs transform) image r)
       else Some result, r')
  | (None, r') => (None, r')
  end.

End Defs.
End CustomAdapter.

(** * Vocabulary of the properties *)

Section Vocabulary.
Context `{RT : Runtime}.
Local Open Scope method_scope.

(** Two versions of a step that differ at most in the fields a run
    writes: [input_image], [output_image] and [applied]. *)
Definition same_config (s s' : TransformStep) : Prop :=
  step_id s' = step_id s /\ step_name s' = step_name s /\
  transform_type s' = transform_type s /\ enabled s' = enabled s /\
  params s' = params s /\ param_specs s' = param_specs s /\
  probability s' = probability s.

(** Entries of [_transforms] related by a run: same transform object,
    same configuration of the step. *)
Definition same_entry (e e' : Transform * TransformStep) : Prop :=
  e'.1 = e.1 /\ same_config e.2 e'.2.

(** A method keeps the relation [R] between the state it starts in and
    the state it leaves, whether it returns or raises. *)
Definition preserves {A} (R : relation State) (m : M A) : Prop :=
  forall st, R st (m st).2.

(** The viewer after some methods ran: its identity, its callbacks and
    the number of its steps are as before, and the entries of
    [_transforms] are related position by position by [Q]. *)
Definition evolves (Q : relation (Transform * TransformStep)) (st st' : State) : Prop :=
  viewer_name (self st') = viewer_name (self st) /\
  pipeline_id (self st') = pipeline_id (self st) /\
  pipeline_name (self st') = pipeline_name (self st) /\
  _update_callbacks (self st') = _update_callbacks (self st) /\
  Forall2 Q (_transforms (self st)) (_transforms (self st')).

(** An entry before and after methods that write at most the parameter
    [written]: the step keeps its id and its [param_specs], every other
    key of [params] and every other attribute of the transform keeps its
    value, and no key of [params] disappears. *)
Definition keeps (written : string) (e e' : Transform * TransformStep) : Prop :=
  step_id e'.2 = step_id e.2 /\
  param_specs e'.2 = param_specs e.2 /\
  dom (params e.2) ⊆ dom (params e'.2) /\
  (forall k, k <> written ->
     params e'.2 !! k = params e.2 !! k /\ attrs e'.1 !! k = attrs e.1 !! k).






(** [rerun] has an image to run on. *)
Definition has_source (v : AugView) : bool :=
  match _last_image v with
  | Some _ => true
  | None => truthy (original_image v)
  end.


(** The writes of a successful [update_step_param], before its re-run:
    the attribute of the transform, the entry of [params] and, for ["p"],
    the mirrored [probability], on the first step with the given id.
    [None]: no such step, [setattr] raises, or [float(value)] raises. *)
Definition write_param (sid param_name : string) (value : Value) (st : State)
  : option State :=
  i ← find_step (_transforms (self st)) sid;
  '(transform, step) ← _transforms (self st) !! i;
  transform' ← setattr transform param_name value;
  step' ← (if String.eqb param_name "p"
           then f ← py_float value;
                Some (set_probability (Some f) (set_param param_name value step))
           else Some (set_param param_name value step));
  Some (mkState
          (set_transforms (<[i := (transform', step')]> (_transforms (self st)))
             (self st))
          (rng st) (tasks st)).

(** All the updates of a list succeed, one after the other. *)
Fixpoint updates_succeed (sid : string) (items : list (string * Value))
    (st : State) : option State :=
  match items with
  | [] => Some st
  | (param_name, value) :: rest =>
      match update_step_param sid param_name value st with
      | (Ok true, st') => updates_succeed sid rest st'
      | _ => None
      end
  end.


(** The server after a method left the state [st]. *)
Definition server_after (srv : Server) (st : State) : Server :=
  mkServer (connected_clients srv) (Some (self st)) (rng st) (tasks st)
    (broken srv) (sent srv).


(** The command makes a run of the pipeline complete: a parameter update
    that returns [True], or a toggle of a known step that raises nothing,
    when [rerun] has a source image; or a [rerun] command with
    [original_image] set that raises nothing. *)
Definition completes_run (message : Message) (srv : Server) (res : Result unit)
  : Prop :=
  match viewer srv, message with
  | Some v, MsgUpdateParam sid param_name value =>
      has_source v = true /\
      (update_step_param sid param_name value
         (mkState v (ambient srv) (pending srv))).1 = Ok true
  | Some v, MsgToggleStep sid en =>
      has_source v = true /\ is_Some (find_step (_transforms v) sid) /\ res = Ok tt
  | Some v, MsgRerun => truthy (original_image v) = true /\ res = Ok tt
  | _, _ => False
  end.

(** The command names a step the pipeline does not have. *)
Definition unknown_step (message : Message) (v : AugView) : Prop :=
  match message with
  | MsgUpdateParam sid _ _ | MsgToggleStep sid _ =>
      forall transform step, (transform, step) ∈ _transforms v -> step_id step <> sid
  | _ => False
  end.

(** A step fell back to its input: it was skipped, or its [try] block was
    left by an exception. *)
Definition fell_back (step : TransformStep) : Prop :=
  applied step = false /\ output_image step = input_image step.

(** The snapshots of consecutive steps are linked: the first input is
    [b_in]; the input of a step is the output of the step before it unless
    that step fell back; and [b_out] is the output of the last step unless
    that step fell back. *)
Fixpoint linked (b_in : option string) (steps : list TransformStep)
    (b_out : option string) : Prop :=
  match steps with
  | [] => b_out = b_in
  | step :: rest =>
      input_image step = b_in /\
      exists b_mid,
        (output_image step = b_mid \/ fell_back step) /\ linked b_mid rest b_out
  end.

End Vocabulary.

(** ** A small runtime: 8-bit arrays and PIL images *)

Module Mini.

(** Objects: a [uint8] numpy array with its shape and its elements in row
    order; a PIL image, with the shape and elements [np.array] would give
    for it; a dictionary with at most the key ["image"]; [None]. *)
Inductive obj : Type :=
| NdArray (sh : list nat) (data : list nat)
| PILImage (sh : list nat) (data : list nat)
| Dict (image : option obj)
| NoneObj.

(** The PNG of a PIL image, base64-encoded: a lossless container of its
    shape and elements, here one character for the rank, one per
    dimension and one per element. *)
Definition chars (l : list nat) : string :=
  string_of_list_ascii (ascii_of_nat <$> l).
Definition unchars (s : string) : list nat :=
  nat_of_ascii <$> list_ascii_of_string s.

Definition png_b64 (sh data : list nat) : string :=
  String (ascii_of_nat (length sh)) (chars sh ++ chars data).

Definition png_b64_open (s : string) : option obj :=
  match s with
  | EmptyString => None
  | String c rest =>
      let l := unchars rest in
      let rank := nat_of_ascii c in
      if (rank <=? length l)%nat
      then Some (PILImage (take rank l) (drop rank l))
      else None
  end.

(** Every element replicated three times along a new or the last axis. *)
Definition triple (data : list nat) : list nat :=
  x ← data; [x; x; x].

(** The first three of every [c] consecutive elements. *)
Fixpoint rgb_of (fuel c : nat) (data : list nat) : list nat :=
  match fuel with
  | O => []
  | S fuel =>
      match data with
      | [] => []
      | _ => (take 3 (take c data) ++ rgb_of fuel c (drop c data))%list
      end
  end.

(** [sum(|a_i - b_i|) / n > 0.5] *)
Definition abs_diff_sum (a b : list nat) : nat :=
  foldr Nat.add 0%nat (zip_with (fun x y => (x - y) + (y - x))%nat a b).

(** The runtime covers [uint8] arrays of rank one to three and the PIL
    images made from them; on anything else its operations raise.  Numeric
    strings are not parsed by [float]. *)
#[export] Instance runtime : Runtime := {|
  Obj := obj;
  Rand := nat;
  isinstance_ndarray x := match x with NdArray _ _ => true | _ => false end;
  isinstance_Image x := match x with PILImage _ _ => true | _ => false end;
  isinstance_dict x := match x with Dict _ => true | _ => false end;
  hasattr_numpy _ := false;
  hasattr_copy x := match x with NoneObj => false | _ => true end;
  shape x := match x with NdArray sh _ => Some sh | _ => None end;
  dtype_is_uint8 x := match x with NdArray _ _ => Some true | _ => None end;
  max_le_1 x :=
    match x with
    | NdArray _ [] => None
    | NdArray _ data => Some (forallb (fun v => v <=? 1)%nat data)
    | _ => None
    end;
  scale255_uint8 x :=
    match x with
    | NdArray sh data => Some (NdArray sh ((fun v => (v * 255) mod 256)%nat <$> data))
    | _ => None
    end;
  astype_uint8 x := match x with NdArray _ _ => Some x | _ => None end;
  stack3 x :=
    match x with NdArray sh data => Some (NdArray (sh ++ [3%nat]) (triple data)) | _ => None end;
  repeat3 x :=
    match x with
    | NdArray sh data =>
        match last sh with
        | Some d => Some (NdArray (removelast sh ++ [(d * 3)%nat]) (triple data))
        | None => None
        end
    | _ => None
    end;
  take3 x :=
    match x with
    | NdArray [h; w; c] data =>
        Some (NdArray [h; w; Nat.min c 3] (rgb_of (length data) c data))
    | _ => None
    end;
  np_array x :=
    match x with
    | PILImage sh data => Some (NdArray sh data)
    | NdArray _ _ => Some x
    | _ => None
    end;
  call_numpy _ := None;
  Image_fromarray x :=
    match x with
    | NdArray [n] data => Some (PILImage [n; 1%nat] data)
    | NdArray [h; w] data => Some (PILImage [h; w] data)
    | NdArray [h; w; c] data =>
        if bool_decide (c = 3%nat) || bool_decide (c = 4%nat)
        then Some (PILImage [h; w; c] data) else None
    | _ => None
    end;
  get_image x dflt :=
    match x with
    | Dict (Some img) => Some img
    | Dict None => Some dflt
    | _ => None
    end;
  save_png_b64 x := match x with PILImage sh data => Some (png_b64 sh data) | _ => None end;
  open_png_b64 := png_b64_open;
  mean_abs_diff_gt_half a b :=
    match a, b with
    | NdArray _ da, NdArray _ db => Some (length da <? 2 * abs_diff_sum da db)%nat
    | _, _ => None
    end;
  uuid4 n := (String.append "step-" (String (ascii_of_nat (48 + n)) ""), S n);
  float_conv v :=
    match v with
    | VInt z =>
        if (Z.abs z <? 2 ^ 53)%Z
        then
          let m := PrimFloat.of_uint63 (Uint63.of_Z (Z.abs z)) in
          Some (if (z <? 0)%Z then PrimFloat.opp m else m)
        else None
    | _ => None
    end;
|}.

(** ** Transforms to run the code on *)

(** Unless said otherwise, a transform leaves the array it is handed as
    it was. *)

(** Element-wise [255 - x]. *)
Definition inverted (data : list nat) : list nat := (fun x => 255 - x)%nat <$> data.

(** [albumentations.InvertImg(p=0.5)]: constructor
    [(self, always_apply: bool = False, p: float = 0.5)]; called with
    [image=...], it returns a dictionary; the random state decides whether
    the image is inverted. *)
Definition invert_img : Transform :=
  mkTransform "InvertImg" "albumentations.augmentations.transforms"
    (Some [mkParam "self" AnnoEmpty None;
           mkParam "always_apply" AnnoBool (Some (VBool false));
           mkParam "p" AnnoFloat (Some (VFloat 0.5))])
    (<["always_apply" := AttrValue (VBool false)]>
      (<["p" := AttrValue (VFloat 0.5)]>
        (<["apply" := AttrValue VCallable]> ∅)))
    (fun _ _ => false)
    (fun _ image r =>
       match image with
       | NdArray sh data =>
           (Some (Dict (Some (NdArray sh (if Nat.even r then inverted data else data)))),
            S r)
       | _ => (None, r)
       end)
    (fun _ image _ => image).


(** Truth value of a Python value. *)
Definition value_truthy (v : Value) : bool :=
  match v with
  | VNone => false
  | VBool b => b
  | VInt z => negb (z =? 0)%Z
  | VFloat f => negb (PrimFloat.eqb f 0)
  | VStr s => negb (String.eqb s "")
  | VTuple items | VList items => negb (bool_decide (items = []))
  | _ => true
  end.

(** Per pixel of an RGB array, the mean of the three channels
    ([np.mean(image, axis=2, keepdims=True).astype(np.uint8)]). *)
Fixpoint gray_values (data : list nat) : list nat :=
  match data with
  | r :: g :: b :: rest => ((r + g + b) / 3)%nat :: gray_values rest
  | _ => []
  end.

(** [GrayscaleTransform] of examples/custom_transform.py.  On an array
    without a third axis [np.mean(image, axis=2)] raises.  With
    [keep_channels] the mean is repeated three times
    ([np.repeat(gray, 3, axis=2)]); without, the axes of length one are
    dropped ([gray.squeeze()]). *)
Definition grayscale_transform : Transform :=
  mkTransform "GrayscaleTransform" "__main__"
    (Some [mkParam "self" AnnoEmpty None;
           mkParam "keep_channels" AnnoBool (Some (VBool true))])
    (<["keep_channels" := AttrValue (VBool true)]> ∅)
    (fun _ _ => false)
    (fun attrs image r =>
       match image, attrs !! "keep_channels" with
       | NdArray [h; w; 3] data, Some (AttrValue keep) =>
           if value_truthy keep
           then (Some (NdArray [h; w; 3] (triple (gray_values data))), r)
           else (Some (NdArray (filter (fun d => d <> 1%nat) [h; w; 1%nat])
                         (gray_values data)), r)
       | _, _ => (None, r)
       end)
    (fun _ image _ => image).

(** Per pixel of an RGB array: the sepia matrix of [SepiaTransform],
    clipped to 255 and truncated. *)
Definition sepia_channel (cr cg cb : N) (r g b : nat) : nat :=
  N.to_nat
    (N.min 255 ((cr * N.of_nat r + cg * N.of_nat g + cb * N.of_nat b) / 1000)).

Fixpoint sepia_pixels (data : list nat) : list nat :=
  match data with
  | r :: g :: b :: rest =>
      sepia_channel 393 769 189 r g b ::
      sepia_channel 349 686 168 r g b ::
      sepia_channel 272 534 131 r g b ::
      sepia_pixels rest
  | _ => []
  end.

(** [SepiaTransform(intensity=1.0)] of examples/custom_transform.py: an
    image that is not [(H, W, 3)] is returned as it is.  The blend with
    the original is the one of intensity 1.0, the sepia image itself. *)
Definition sepia_transform : Transform :=
  mkTransform "SepiaTransform" "__main__"
    (Some [mkParam "self" AnnoEmpty None;
           mkParam "intensity" AnnoFloat (Some (VFloat 0.8))])
    (<["intensity" := AttrValue (VFloat 1.0)]> ∅)
    (fun _ _ => false)
    (fun _ image r =>
       match image with
       | NdArray [h; w; 3] data => (Some (NdArray [h; w; 3] (sepia_pixels data)), r)
       | _ => (Some image, r)
       end)
    (fun _ image _ => image).

(** A custom transform written with PIL that hands the PIL image back:
    [lambda image: ImageOps.invert(Image.fromarray(image))]. *)
Definition pil_invert : Transform :=
  mkTransform "function" "builtins"
    (Some [mkParam "self" AnnoEmpty None; mkParam "args" AnnoEmpty None;
           mkParam "kwargs" AnnoEmpty None])
    ∅
    (fun _ _ => false)
    (fun _ image r =>
       match Image_fromarray image with
       | Some (PILImage sh data) => (Some (PILImage sh (inverted data)), r)
       | _ => (None, r)
       end)
    (fun _ image _ => image).

(** ** States to run the code on *)

(** A viewer as [AugView("demo")] creates it, with the callback of
    [start_server] registered. *)
Definition fresh_viewer : AugView :=
  mkAugView "demo" "pipeline-0" "demo" None None [] [broadcast_callback] None.

Definition fresh : State := mkState fresh_viewer 0%nat [].

(** The state a sequence of method calls leaves. *)
Definition after {A} (m : M A) (st : State) : State := (m st).2.

(** A 1x2 grayscale image and a 1x2 RGB image. *)
Definition gray_image : obj := NdArray [1; 2]%nat [100; 50]%nat.
Definition rgb_image : obj := NdArray [1; 2; 3]%nat [100; 100; 100; 10; 20; 30]%nat.

(** The step [add_transform] creates for a custom transform. *)
Definition new_step (new_id : string) (transform : Transform) : TransformStep :=
  mkStep new_id (class_name transform) "custom" (_get_transform_params transform)
    (_extract_param_specs transform) None None true true None.

(** A viewer with the given entries and nothing run yet. *)
Definition loaded (entries : list (Transform * TransformStep)) : State :=
  mkState (set_transforms entries fresh_viewer) 0%nat [].

(** One sepia step. *)
Definition sepia_only : State :=
  loaded [(sepia_transform, new_step "step-0" sepia_transform)].

(** The encoding of the grayscale image: its three-channel PNG. *)
Definition gray_png : string := png_b64 [1; 2; 3]%nat [100; 100; 100; 50; 50; 50]%nat.

(** One sepia step, after [process_image] on the grayscale image (see
    [sepia_ran_is_reached]), the broadcast of that run gone. *)
Definition sepia_ran : State :=
  mkState
    (mkAugView "demo" "pipeline-0" "demo" (Some gray_png) (Some gray_png)
       [(sepia_transform,
         set_applied true
           (set_output_image (Some gray_png)
              (set_input_image (Some gray_png)
                 (new_step "step-0" sepia_transform))))]
       [broadcast_callback] (Some gray_image))
    0%nat [].

(** One grayscale step. *)
Definition grayscale_only : State :=
  loaded [(grayscale_transform, new_step "step-0" grayscale_transform)].

(** One grayscale step, after [process_image] on the RGB image (see
    [grayscale_ran_is_reached]), the broadcast of that run gone. *)
Definition grayscale_ran : State :=
  mkState
    (mkAugView "demo" "pipeline-0" "demo"
       (Some (png_b64 [1; 2; 3]%nat [100; 100; 100; 10; 20; 30]%nat))
       (Some (png_b64 [1; 2; 3]%nat [100; 100; 100; 20; 20; 20]%nat))
       [(grayscale_transform,
         set_applied true
           (set_output_image
              (Some (png_b64 [1; 2; 3]%nat [100; 100; 100; 20; 20; 20]%nat))
              (set_input_image
                 (Some (png_b64 [1; 2; 3]%nat [100; 100; 100; 10; 20; 30]%nat))
                 (new_step "step-0" grayscale_transform))))]
       [broadcast_callback] (Some rgb_image))
    0%nat [].


(** One step whose transform hands back a PIL image. *)
Definition pil_only : State := loaded [(pil_invert, new_step "step-0" pil_invert)].

(** The state its run on the RGB image leaves. *)
Definition pil_ran : State := after (process_image rgb_image) pil_only.

(** A server with two open observers, the second of which has a broken
    socket, serving a given viewer state; no broadcast is pending. *)
Definition serving (st : State) : Server :=
  mkServer {[1%nat; 2%nat]} (Some (self st)) (rng st) [] {[2%nat]} [].

(** The server after the first observer sent a command. *)
Definition after_message (message : Message) (st : State) : Server :=
  snd (ws_message message (serving st)).




(** A custom transform whose constructor has a numpy array among its
    defaults: [def __init__(self, scale=2.0, offset=np.array([1, 2, 3]),
    clip=True)]; it hands the image back. *)
Definition offset_signature_head : list Param :=
  [mkParam "self" AnnoEmpty None; mkParam "scale" AnnoEmpty (Some (VFloat 2))].
Definition offset_parameter : Param := mkParam "offset" AnnoEmpty (Some VArray).
Definition offset_signature_tail : list Param :=
  [mkParam "clip" AnnoEmpty (Some (VBool true))].

Definition offset_transform : Transform :=
  mkTransform "Offset" "__main__"
    (Some (offset_signature_head ++ offset_parameter :: offset_signature_tail)%list)
    (<["scale" := AttrValue (VFloat 2)]>
      (<["offset" := AttrValue VArray]>
        (<["clip" := AttrValue (VBool true)]> ∅)))
    (fun _ _ => false)
    (fun _ image r => (Some image, r))
    (fun _ image _ => image).


(** [GrayscaleTransform] after [setattr(transform, "p", "abc")]. *)
Definition grayscale_with_p : Transform :=
  mkTransform "GrayscaleTransform" "__main__"
    (init_signature grayscale_transform)
    (<["p" := AttrValue (VStr "abc")]> (attrs grayscale_transform))
    (rejects grayscale_transform) (call grayscale_transform)
    (writes grayscale_transform).

(** The sepia step after its first run on the grayscale image, the
    broadcast of that run still pending. *)
Definition sepia_first_run : State := after (process_image gray_image) sepia_only.

(** One disabled grayscale step. *)
Definition disabled_only : State :=
  loaded [(grayscale_transform,
           set_enabled false (new_step "step-0" grayscale_transform))].

(** The encoding of the RGB image. *)
Definition rgb_png : string := png_b64 [1; 2; 3]%nat [100; 100; 100; 10; 20; 30]%nat.





(** A custom transform that returns [None]: [lambda image: None]. *)
Definition returns_none : Transform :=
  mkTransform "function" "builtins"
    (Some [mkParam "self" AnnoEmpty None; mkParam "args" AnnoEmpty None;
           mkParam "kwargs" AnnoEmpty None])
    ∅
    (fun _ _ => false)
    (fun _ _ r => (Some NoneObj, r))
    (fun _ image _ => image).

(** A disabled grayscale step in front of, and behind, a step whose
    transform returns [None]. *)
Definition disabled_then_none : State :=
  loaded [(grayscale_transform,
           set_enabled false (new_step "step-0" grayscale_transform));
          (returns_none, new_step "step-1" returns_none)].
Definition none_then_disabled : State :=
  loaded [(returns_none, new_step "step-0" returns_none);
          (grayscale_transform,
           set_enabled false (new_step "step-1" grayscale_transform))].


(** A callback that always raises, and a viewer that has it registered
    between two registrations of the broadcast callback. *)
Definition raising_callback : Callback := fun _ _ => None.
Definition noisy_viewer : AugView :=
  set_callbacks ([broadcast_callback] ++ raising_callback :: [broadcast_callback])%list
    fresh_viewer.

End Mini.

(** * Properties *)

Section Execution.
Context `{RT : Runtime}.
Local Open Scope method_scope.

(** ** What execution leaves alone *)

#[local] Instance same_config_preorder : PreOrder same_config.
Proof.
  split.
  - intros s. repeat split.
  - intros s1 s2 s3 H12 H23. unfold same_config in *.
    destruct H12 as (?&?&?&?&?&?&?), H23 as (?&?&?&?&?&?&?).
    repeat split; congruence.
Qed.

#[local] Instance same_entry_preorder : PreOrder same_entry.
Proof.
  split.
  - intros e. split; reflexivity.
  - intros e1 e2 e3 [H1 H2] [H3 H4]. split; [congruence | by etrans].
Qed.

Lemma run_step_config transform step current_image r :
  same_config step (run_step transform step current_image r).1.1.
Proof.
  unfold run_step.
  repeat case_match; simpl; repeat split.
Qed.

Lemma run_steps_entries ts current_image r :
  Forall2 same_entry ts (run_steps ts current_image r).1.1.
Proof.
  revert current_image r.
  induction ts as [|[transform step] rest IH]; intros current_image r; simpl.
  - constructor.
  - pose proof (run_step_config transform step current_image r) as Hc.
    destruct (run_step transform step current_image r) as [[step' [cur'|]] r'];
      simpl in *.
    + specialize (IH cur' r').
      destruct (run_steps rest cur' r') as [[rest' res] r'']; simpl in *.
      constructor; [by split | done].
    + constructor; [by split | apply Forall2_same_length_lookup_2; [done|]].
      intros i x y Hx Hy. assert (x = y) as -> by congruence. reflexivity.
Qed.

Lemma run_steps_length ts current_image r :
  length (run_steps ts current_image r).1.1 = length ts.
Proof.
  symmetry. eapply Forall2_length, run_steps_entries.
Qed.

(** The loop over a concatenation: the second part starts from the
    working image and the random state the first part ends with, unless
    an exception left the loop. *)
Lemma run_steps_app ts1 ts2 current_image r :
  run_steps (ts1 ++ ts2) current_image r =
  match run_steps ts1 current_image r with
  | (ts1', None, r') => ((ts1' ++ ts2)%list, None, r')
  | (ts1', Some cur, r') =>
      let '(ts2', res, r'') := run_steps ts2 cur r' in
      ((ts1' ++ ts2')%list, res, r'')
  end.
Proof.
  revert current_image r.
  induction ts1 as [|[transform step] rest IH]; intros current_image r; simpl.
  - by destruct (run_steps ts2 current_image r) as [[? ?] ?].
  - destruct (run_step transform step current_image r) as [[step' [cur'|]] r'];
      [|done].
    rewrite IH.
    destruct (run_steps rest cur' r') as [[rest' [cur''|]] r'']; [|done].
    by destruct (run_steps ts2 cur'' r'') as [[? ?] ?].
Qed.

(** ** Methods as state transformers *)

#[local] Instance evolves_preorder Q `{!PreOrder Q} : PreOrder (evolves Q).
Proof.
  split.
  - intros st. repeat split. apply Forall_Forall2_diag, Forall_forall.
    intros; reflexivity.
  - intros st1 st2 st3 (?&?&?&?&H12) (?&?&?&?&H23).
    repeat split; try congruence.
    eapply Forall2_trans; [|exact H12|exact H23].
    intros ? ? ?; apply transitivity.
Qed.

Lemma evolves_mono (Q Q' : relation (Transform * TransformStep)) st st' :
  (forall e e', Q e e' -> Q' e e') -> evolves Q st st' -> evolves Q' st st'.
Proof.
  intros HQ (?&?&?&?&H). repeat split; try done.
  eapply Forall2_impl; eauto.
Qed.

Lemma preserves_ret {A} R `{!Reflexive R} (a : A) : preserves R (ret a).
Proof. intros st. reflexivity. Qed.

Lemma preserves_raise {A} R `{!Reflexive R} : preserves R (@raise _ A).
Proof. intros st. reflexivity. Qed.

Lemma preserves_lift {A} R `{!Reflexive R} (o : option A) : preserves R (lift o).
Proof. destruct o; [apply preserves_ret | apply preserves_raise]; done. Qed.

Lemma preserves_get_self R `{!Reflexive R} : preserves R get_self.
Proof. intros st. reflexivity. Qed.

Lemma preserves_bind {A B} R `{!Transitive R} (m : M A) (k : A -> M B) :
  preserves R m -> (forall a, preserves R (k a)) -> preserves R (bind m k).
Proof.
  intros Hm Hk st. unfold bind. specialize (Hm st).
  destruct (m st) as [[a|] st1]; simpl in *; [|done].
  etrans; [exact Hm | apply Hk].
Qed.

Lemma preserves_try_except {A} R `{!Transitive R} (m h : M A) :
  preserves R m -> preserves R h -> preserves R (try_except m h).
Proof.
  intros Hm Hh st. unfold try_except. specialize (Hm st).
  destruct (m st) as [[a|] st1]; simpl in *; [done|].
  etrans; [exact Hm | apply Hh].
Qed.

Lemma preserves_modify_self Q `{!Reflexive Q} (f : AugView -> AugView) :
  (forall v, viewer_name (f v) = viewer_name v /\
             pipeline_id (f v) = pipeline_id v /\
             pipeline_name (f v) = pipeline_name v /\
             _update_callbacks (f v) = _update_callbacks v /\
             _transforms (f v) = _transforms v) ->
  preserves (evolves Q) (modify_self f).
Proof.
  intros Hf st. destruct (Hf (self st)) as (?&?&?&?&Hts).
  repeat split; simpl; try done. rewrite Hts.
  apply Forall_Forall2_diag, Forall_forall. intros; reflexivity.
Qed.

Lemma preserves_notify Q `{!Reflexive Q} : preserves (evolves Q) _notify_update.
Proof.
  intros st. repeat split; simpl.
  apply Forall_Forall2_diag, Forall_forall. intros; reflexivity.
Qed.

Lemma run_loop_evolves current_image :
  preserves (evolves same_entry) (run_loop current_image).
Proof.
  intros st. unfold run_loop.
  pose proof (run_steps_entries (_transforms (self st)) current_image (rng st)) as H.
  destruct (run_steps (_transforms (self st)) current_image (rng st)) as [[ts' res] r'].
  simpl in H. destruct res; repeat split; simpl; done.
Qed.

(** A run relates every entry to itself up to the fields it writes. *)
Lemma process_image_evolves image :
  preserves (evolves same_entry) (process_image image).
Proof.
  unfold process_image.
  repeat (first
    [ apply run_loop_evolves
    | apply preserves_bind; [apply _| |intros ?]
    | apply preserves_lift; apply _
    | apply preserves_ret; apply _
    | apply preserves_notify; apply _
    | apply preserves_modify_self; [apply _|by intros ?] ]).
Qed.

Lemma rerun_evolves : preserves (evolves same_entry) rerun.
Proof.
  unfold rerun.
  apply preserves_bind; [apply _|apply preserves_get_self; apply _|intros v].
  destruct (_last_image v).
  - apply preserves_bind; [apply _|apply process_image_evolves|intros ?].
    apply preserves_ret; apply _.
  - destruct (truthy _); [|apply preserves_ret; apply _].
    apply preserves_bind; [apply _|apply preserves_lift; apply _|intros ?].
    apply preserves_bind; [apply _|apply process_image_evolves|intros ?].
    apply preserves_ret; apply _.
Qed.

(** ** What a run writes *)


(** ** Inside one run *)

Lemma run_step_disabled transform step current_image r :
  enabled step = false ->
  run_step transform step current_image r =
  match image_to_base64 current_image with
  | Some b =>
      (set_applied false (set_output_image (Some b) (set_input_image (Some b) step)),
       Some current_image, r)
  | None => (step, None, r)
  end.
Proof.
  intros Hen. unfold run_step. rewrite Hen. simpl.
  by destruct (image_to_base64 current_image).
Qed.


(** What a run that returns went through. *)
Lemma process_image_ok image st out st' :
  process_image image st = (Ok out, st') ->
  exists src b bf ts',
    (if isinstance_Image image then np_array image else Some image) = Some src /\
    copy src = Some src /\
    image_to_base64 src = Some b /\
    run_steps (_transforms (self st)) src (rng st) = (ts', Some out, rng st') /\
    image_to_base64 out = Some bf /\
    self st' =
      mkAugView (viewer_name (self st)) (pipeline_id (self st))
        (pipeline_name (self st)) (Some b) (Some bf) ts'
        (_update_callbacks (self st)) (Some src) /\
    tasks st' = notify_all (self st') (tasks st).
Proof.
  unfold process_image, bind, lift, modify_self, run_loop, _notify_update, ret, raise.
  intros H.
  destruct (if isinstance_Image image then np_array image else Some image)
    as [src|] eqn:Hsrc; simpl in H; [|done].
  destruct (copy src) as [src'|] eqn:Hcopy; simpl in H; [|done].
  assert (src' = src) as ->.
  { unfold copy in Hcopy. by destruct (hasattr_copy src); simplify_eq. }
  destruct (image_to_base64 src) as [b|] eqn:Hb; simpl in H; [|done].
  destruct (run_steps (_transforms (self st)) src (rng st)) as [[ts' [cur|]] r']
    eqn:Hrun; simpl in H; [|done].
  destruct (image_to_base64 cur) as [bf|] eqn:Hbf; simpl in H; [|done].
  simplify_eq. exists src, b, bf, ts'. simpl. done.
Qed.

(** Conversely: a run whose source can be copied and encoded, whose loop
    ends without an exception and whose last working image can be encoded,
    returns that image. *)
Lemma process_image_returns image st src b ts' out r' bf :
  (if isinstance_Image image then np_array image else Some image) = Some src ->
  copy src = Some src ->
  image_to_base64 src = Some b ->
  run_steps (_transforms (self st)) src (rng st) = (ts', Some out, r') ->
  image_to_base64 out = Some bf ->
  (process_image image st).1 = Ok out.
Proof.
  intros Hsrc Hcopy Hb Hloop Hbf.
  unfold process_image, bind, lift, modify_self, run_loop, _notify_update, ret, raise.
  rewrite Hsrc. simpl. rewrite Hcopy. simpl. rewrite Hb. simpl.
  rewrite Hloop. simpl. rewrite Hbf. done.
Qed.

(** A run that raises schedules nothing: the callbacks are the last thing
    [process_image] calls. *)
Lemma process_image_raise image st st' :
  process_image image st = (Raise, st') -> tasks st' = tasks st.
Proof.
  unfold process_image, bind, lift, modify_self, run_loop, _notify_update, ret, raise.
  intros H.
  destruct (if isinstance_Image image then np_array image else Some image)
    as [src|]; simpl in H; [|by simplify_eq].
  destruct (copy src) as [src'|]; simpl in H; [|by simplify_eq].
  destruct (image_to_base64 src) as [b|]; simpl in H; [|by simplify_eq].
  destruct (run_steps (_transforms (self st)) src' (rng st)) as [[ts' [cur|]] r'];
    simpl in H; [|by simplify_eq].
  destruct (image_to_base64 cur) as [bf|]; simpl in H; by simplify_eq.
Qed.

(** What a run leaves, whether it returns or raises, once its source is
    converted, copied and encoded. *)
Lemma process_image_run image st src b :
  (if isinstance_Image image then np_array image else Some image) = Some src ->
  copy src = Some src ->
  image_to_base64 src = Some b ->
  let '(ts', res, r') := run_steps (_transforms (self st)) src (rng st) in
  _transforms (self (process_image image st).2) = ts' /\
  rng (process_image image st).2 = r' /\
  (process_image image st).1 =
    match res with
    | Some out => match image_to_base64 out with Some _ => Ok out | None => Raise end
    | None => Raise
    end.
Proof.
  intros Hsrc Hcopy Hb.
  unfold process_image, bind, lift, modify_self, run_loop, _notify_update, ret, raise.
  rewrite Hsrc. simpl. rewrite Hcopy. simpl. rewrite Hb. simpl.
  destruct (run_steps (_transforms (self st)) src (rng st)) as [[ts' [cur|]] r'];
    simpl; [|done].
  by destruct (image_to_base64 cur).
Qed.

(** C8.  Take any run, whether it returns or raises, and a step with
    [enabled == false].  When the run reaches the step (its source was
    converted, copied and encoded, and the steps before it left a working
    image [current]) and [current] can be encoded, the step ends with
    [output_image] equal to [input_image], the encoding of [current], and
    with [applied] false; the steps after it start from [current] itself
    and from the random state the steps before it left; and that holds
    whatever happens later in the run.  Every run that returns reaches
    each of its disabled steps in this way. *)
Theorem disabled_step_is_passthrough (image : Obj) (st : State)
    (pre post : list (Transform * TransformStep))
    (transform : Transform) (step : TransformStep) :
  _transforms (self st) = (pre ++ (transform, step) :: post)%list ->
  enabled step = false ->
  (forall src pre' current r_mid b,
     (if isinstance_Image image then np_array image else Some image) = Some src ->
     copy src = Some src ->
     is_Some (image_to_base64 src) ->
     run_steps pre src (rng st) = (pre', Some current, r_mid) ->
     image_to_base64 current = Some b ->
     let step' :=
       set_applied false (set_output_image (Some b) (set_input_image (Some b) step)) in
     let '(post', res, r_end) := run_steps post current r_mid in
     _transforms (self (process_image image st).2)
       = (pre' ++ (transform, step') :: post')%list /\
     input_image step' = image_to_base64 current /\
     output_image step' = input_image step' /\
     applied step' = false /\
     rng (process_image image st).2 = r_end /\
     (process_image image st).1 =
       match res with
       | Some out => match image_to_base64 out with Some _ => Ok out | None => Raise end
       | None => Raise
       end) /\
  (forall out st',
     process_image image st = (Ok out, st') ->
     exists src pre' current r_mid b,
       (if isinstance_Image image then np_array image else Some image) = Some src /\
       copy src = Some src /\
       is_Some (image_to_base64 src) /\
       run_steps pre src (rng st) = (pre', Some current, r_mid) /\
       image_to_base64 current = Some b).
Proof.
  intros Hts Hen. split.
  - intros src pre' current r_mid b Hsrc Hcopy [b0 Hb0] Hpre Hb step'.
    pose proof (process_image_run image st src b0 Hsrc Hcopy Hb0) as Hrun.
    rewrite Hts, run_steps_app, Hpre in Hrun. simpl in Hrun.
    rewrite run_step_disabled, Hb in Hrun by done.
    destruct (run_steps post current r_mid) as [[post' res] r_end].
    destruct Hrun as (Hts' & Hrng & Hres).
    subst step'. simpl. rewrite Hb. done.
  - intros out st' Hrun.
    apply process_image_ok in Hrun
      as (src & b & bf & ts' & Hsrc & Hcopy & Hb & Hloop & _ & _ & _).
    rewrite Hts, run_steps_app in Hloop.
    destruct (run_steps pre src (rng st)) as [[pre' [current|]] r_mid] eqn:Hpre;
      [|done].
    simpl in Hloop. rewrite run_step_disabled in Hloop by done.
    destruct (image_to_base64 current) as [bc|] eqn:Hbc; [|done].
    exists src, pre', current, r_mid, bc. eauto 10.
Qed.


End Execution.

Section Mutation.
Context `{RT : Runtime}.
Local Open Scope method_scope.
#[local] Existing Instance evolves_preorder.

(** ** Looking a step up *)

Lemma find_step_None ts sid :
  find_step ts sid = None <->
  forall transform step, (transform, step) ∈ ts -> step_id step <> sid.
Proof.
  induction ts as [|[t s] rest IH]; simpl.
  - split; [intros _ ? ? H; by apply elem_of_nil in H | done].
  - destruct (String.eqb (step_id s) sid) eqn:E.
    + apply String.eqb_eq in E. split; [done|].
      intros H. exfalso. eapply H; [apply list_elem_of_here | done].
    + apply String.eqb_neq in E.
      rewrite fmap_None, IH. split.
      * intros H t' s' [Heq|Hin]%elem_of_cons; [by simplify_eq | by eapply H].
      * intros H t' s' Hin. eapply H. by apply list_elem_of_further.
Qed.

(** The lookup only reads the ids, in order. *)
Lemma find_step_ids ts ts' sid :
  Forall2 (fun e e' => step_id e'.2 = step_id e.2) ts ts' ->
  find_step ts' sid = find_step ts sid.
Proof.
  induction 1 as [|[t s] [t' s'] rest rest' Hid _ IH]; simpl in *; [done|].
  by rewrite Hid, IH.
Qed.

Lemma update_step_param_not_found sid param_name value st :
  find_step (_transforms (self st)) sid = None ->
  update_step_param sid param_name value st = (Ok false, st).
Proof.
  intros Hnone. unfold update_step_param, bind, get_self. by rewrite Hnone.
Qed.

(** C9.  With a step id that no step of the pipeline carries,
    [update_step_param] returns [False] and the state it leaves is the
    state it found: no step field, no pipeline field, no transform
    attribute is written, the random state is untouched (no transform was
    called, so nothing was re-run) and no update is notified. *)
Theorem update_unknown_step_is_noop (sid param_name : string) (value : Value)
    (st : State) :
  (forall transform step,
     (transform, step) ∈ _transforms (self st) -> step_id step <> sid) ->
  update_step_param sid param_name value st = (Ok false, st).
Proof.
  intros Hnone. by apply update_step_param_not_found, find_step_None.
Qed.

(** ** What a parameter update writes *)

#[local] Instance keeps_preorder written : PreOrder (keeps written).
Proof.
  split.
  - intros e. repeat split; done.
  - intros e1 e2 e3 (?&?&?&H12) (?&?&?&H23).
    split; [congruence|]. split; [congruence|]. split; [by etrans|].
    intros k Hk. destruct (H12 k Hk) as [? ?], (H23 k Hk) as [? ?].
    split; congruence.
Qed.

Lemma same_entry_keeps written e e' : same_entry e e' -> keeps written e e'.
Proof.
  intros [Ht (Hid&_&_&_&Hp&Hs&_)]. repeat split; try done.
  - by rewrite Hp.
  - by rewrite Hp.
  - by rewrite Ht.
Qed.

Lemma preserves_weaken {A} (R R' : relation State) (m : M A) :
  (forall st st', R st st' -> R' st st') -> preserves R m -> preserves R' m.
Proof. intros HR Hm st. apply HR, Hm. Qed.

Lemma rerun_keeps written : preserves (evolves (keeps written)) rerun.
Proof.
  eapply preserves_weaken; [|apply rerun_evolves].
  intros st st'. apply evolves_mono, same_entry_keeps.
Qed.


Lemma preserves_modify_entry Q `{!Reflexive Q} i f :
  (forall e, Q e (f e)) -> preserves (evolves Q) (modify_entry i f).
Proof.
  intros Hf st. repeat split; simpl.
  generalize (_transforms (self st)) as ts. revert i.
  induction i as [|i IH]; intros [|e ts]; simpl; constructor;
    try done; try apply IH.
  all: apply Forall_Forall2_diag, Forall_forall; intros; reflexivity.
Qed.

Lemma setattr_entry_keeps i param_name value :
  preserves (evolves (keeps param_name)) (setattr_entry i param_name value).
Proof.
  intros st. unfold setattr_entry.
  destruct (_transforms (self st) !! i) as [[t s]|] eqn:Hi; [|reflexivity].
  unfold setattr. destruct (rejects t param_name value); [reflexivity|].
  repeat split; simpl.
  apply Forall2_same_length_lookup_2; [by rewrite length_insert|].
  intros j e e' He He'.
  destruct (decide (j = i)) as [->|Hne].
  - rewrite list_lookup_insert_eq in He' by by eapply lookup_lt_Some.
    simplify_eq. repeat split; simpl; try done.
    by rewrite lookup_insert_ne.
  - rewrite list_lookup_insert_ne in He' by done. simplify_eq. reflexivity.
Qed.

Lemma update_step_param_keeps sid param_name value :
  preserves (evolves (keeps param_name)) (update_step_param sid param_name value).
Proof.
  unfold update_step_param.
  apply preserves_bind; [apply _|apply preserves_get_self; apply _|intros v].
  destruct (find_step (_transforms v) sid) as [i|]; [|apply preserves_ret; apply _].
  apply preserves_try_except; [apply _| |apply preserves_ret; apply _].
  apply preserves_bind; [apply _|apply setattr_entry_keeps|intros _].
  apply preserves_bind; [apply _| |intros _].
  { apply preserves_modify_entry; [apply _|]. intros [t0 s0]. simpl.
    repeat split; simpl; try done.
    - rewrite dom_insert_L. set_solver.
    - by rewrite lookup_insert_ne. }
  apply preserves_bind; [apply _| |intros _].
  { destruct (String.eqb param_name "p"); [|apply preserves_ret; apply _].
    apply preserves_bind; [apply _|apply preserves_lift; apply _|intros f].
    apply preserves_modify_entry; [apply _|]. intros [t0 s0]. repeat split; done. }
  apply preserves_bind; [apply _|apply rerun_keeps|intros _].
  apply preserves_ret; apply _.
Qed.


(** ** Specifications and the values behind them *)






(** ** The write and the re-run of a parameter update *)

Lemma rerun_cases st :
  match rerun st with
  | (Ok (Some out), st') =>
      has_source (self st) = true /\
      exists image, process_image image st = (Ok out, st')
  | (Ok None, st') => has_source (self st) = false /\ st' = st
  | (Raise, st') => tasks st' = tasks st
  end.
Proof.
  unfold rerun, bind, get_self, has_source, lift, ret, raise.
  destruct (_last_image (self st)) as [last|].
  - destruct (process_image last st) as [[out|] st'] eqn:Hp.
    + eauto.
    + by apply process_image_raise in Hp.
  - destruct (truthy (original_image (self st))); [|done].
    destruct (from_option base64_to_image None (original_image (self st)))
      as [image|]; simpl; [|done].
    destruct (process_image image st) as [[out|] st'] eqn:Hp.
    + eauto.
    + by apply process_image_raise in Hp.
Qed.

Lemma alter_insert_same {A} (f : A -> A) (i : nat) (x : A) (l : list A) :
  (i < length l)%nat -> alter f i (<[i:=x]> l) = <[i:=f x]> l.
Proof.
  intros Hi. apply list_eq. intros j.
  destruct (decide (j = i)) as [->|Hne].
  - rewrite list_lookup_alter, decide_True by done.
    by rewrite !list_lookup_insert_eq by done.
  - rewrite list_lookup_alter, decide_False by done.
    by rewrite !list_lookup_insert_ne by done.
Qed.

Lemma modify_entry_run i f st :
  modify_entry i f st =
  (Ok tt, mkState (set_transforms (alter f i (_transforms (self st))) (self st))
            (rng st) (tasks st)).
Proof. reflexivity. Qed.

(** A successful update is the write followed by a re-run that did not
    raise; every other outcome is [False]. *)
Lemma update_step_param_cases sid param_name value st :
  match update_step_param sid param_name value st with
  | (Ok true, st') =>
      exists mid o, write_param sid param_name value st = Some mid /\
                    rerun mid = (Ok o, st')
  | (Ok false, st') => tasks st' = tasks st
  | (Raise, _) => False
  end.
Proof.
  unfold update_step_param, write_param, bind, get_self, try_except.
  destruct (find_step (_transforms (self st)) sid) as [i|] eqn:Hfind; simpl; [|done].
  unfold setattr_entry.
  destruct (_transforms (self st) !! i) as [[t s]|] eqn:Hi; simpl; [|done].
  destruct (setattr t param_name value) as [t'|]; simpl; [|done].
  rewrite alter_insert_same by by eapply lookup_lt_Some. simpl.
  destruct (String.eqb param_name "p").
  - unfold lift. destruct (py_float value) as [f|]; simpl; [|done].
    rewrite alter_insert_same by by eapply lookup_lt_Some. simpl.
    match goal with |- context [rerun ?m] => set (mid := m) end.
    pose proof (rerun_cases mid) as Hr.
    destruct (rerun mid) as [[o|] st'] eqn:Hrerun; simpl; [|done].
    by exists mid, o.
  - simpl. unfold ret at 1.
    match goal with |- context [rerun ?m] => set (mid := m) end.
    pose proof (rerun_cases mid) as Hr.
    destruct (rerun mid) as [[o|] st'] eqn:Hrerun; simpl; [|done].
    by exists mid, o.
Qed.

(** ** Batches of updates *)

Lemma evolves_find_step written st st' sid :
  evolves (keeps written) st st' ->
  find_step (_transforms (self st')) sid = find_step (_transforms (self st)) sid.
Proof.
  intros (_&_&_&_&Hts). apply find_step_ids.
  eapply Forall2_impl; [exact Hts|]. by intros e e' (?&_).
Qed.






Lemma updates_succeed_find sid items st st' sid' :
  updates_succeed sid items st = Some st' ->
  find_step (_transforms (self st')) sid' = find_step (_transforms (self st)) sid'.
Proof.
  revert st. induction items as [|[k v] rest IH]; intros st; simpl.
  - by intros [= ->].
  - pose proof (update_step_param_keeps sid k v st) as Hk.
    destruct (update_step_param sid k v st) as [[[|]|] st1]; simpl in *; try done.
    intros H. rewrite (IH _ H). by eapply evolves_find_step.
Qed.









End Mutation.

Ltac conjs := repeat match goal with |- _ /\ _ => split end.

Section Sync.
Context `{RT : Runtime}.
Local Open Scope method_scope.

(** ** When a snapshot is broadcast *)

Lemma notify_all_broadcast v pending :
  _update_callbacks v = [broadcast_callback] ->
  notify_all v pending = (pending ++ [to_dict (pipeline v)])%list.
Proof. unfold notify_all. by intros ->. Qed.

(** A run that returns schedules one broadcast, of the pipeline as the run
    left it. *)
Lemma process_image_broadcast image st out st' :
  _update_callbacks (self st) = [broadcast_callback] ->
  process_image image st = (Ok out, st') ->
  tasks st' = (tasks st ++ [to_dict (pipeline (self st'))])%list.
Proof.
  intros Hcb Hrun.
  pose proof (process_image_evolves image st) as (_&_&_&Hcb'&_).
  rewrite Hrun in Hcb'. simpl in Hcb'.
  apply process_image_ok in Hrun as (?&?&?&?&_&_&_&_&_&_&->).
  apply notify_all_broadcast. congruence.
Qed.

Lemma rerun_broadcast st o st' :
  _update_callbacks (self st) = [broadcast_callback] ->
  rerun st = (Ok o, st') ->
  if has_source (self st)
  then tasks st' = (tasks st ++ [to_dict (pipeline (self st'))])%list
  else st' = st.
Proof.
  intros Hcb Hr. pose proof (rerun_cases st) as Hc. rewrite Hr in Hc.
  destruct o as [out|].
  - destruct Hc as [-> [image Hp]]. by eapply process_image_broadcast.
  - by destruct Hc as [-> ->].
Qed.

Lemma write_param_self sid param_name value st mid :
  write_param sid param_name value st = Some mid ->
  exists ts', mid = mkState (set_transforms ts' (self st)) (rng st) (tasks st).
Proof.
  unfold write_param. intros H.
  destruct (find_step _ _) as [i|]; simpl in H; [|done].
  destruct (_ !! i) as [[t s]|]; simpl in H; [|done].
  destruct (setattr _ _ _) as [t'|]; simpl in H; [|done].
  destruct (String.eqb _ _); simpl in H.
  - destruct (py_float _); simpl in H; [|done]. simplify_eq. eauto.
  - simplify_eq. eauto.
Qed.

Lemma update_step_param_broadcast sid param_name value st b st' :
  _update_callbacks (self st) = [broadcast_callback] ->
  update_step_param sid param_name value st = (Ok b, st') ->
  tasks st' =
    if b && has_source (self st)
    then (tasks st ++ [to_dict (pipeline (self st'))])%list
    else tasks st.
Proof.
  intros Hcb Hu. pose proof (update_step_param_cases sid param_name value st) as Hc.
  rewrite Hu in Hc. destruct b; [|done].
  destruct Hc as (mid & o & Hw & Hr).
  apply write_param_self in Hw as [ts' ->].
  apply rerun_broadcast in Hr; [|done]. simpl in *.
  change (has_source (set_transforms ts' (self st))) with (has_source (self st)) in Hr.
  destruct (has_source (self st)); [done|]. by subst.
Qed.

Lemma toggle_step_run sid en st :
  toggle_step sid en st =
  match find_step (_transforms (self st)) sid with
  | None => (Ok false, st)
  | Some i =>
      match
        rerun (mkState
                 (set_transforms
                    (alter (fun e => (e.1, set_enabled en e.2)) i
                       (_transforms (self st))) (self st))
                 (rng st) (tasks st))
      with
      | (Ok _, st') => (Ok true, st')
      | (Raise, st') => (Raise, st')
      end
  end.
Proof.
  unfold toggle_step, bind, get_self.
  destruct (find_step (_transforms (self st)) sid); [|done].
  simpl. by destruct (rerun _) as [[?|] ?].
Qed.

Lemma server_after_same srv v :
  viewer srv = Some v ->
  server_after srv (mkState v (ambient srv) (pending srv)) = srv.
Proof. destruct srv. simpl. by intros ->. Qed.

(** Delivery: [broadcast_update] hands the message to every connected
    socket whose [send_text] does not raise. *)
Lemma broadcast_update_reaches data srv c :
  c ∈ connected_clients srv -> c ∉ broken srv ->
  (c, data) ∈ sent (broadcast_update data srv).
Proof.
  intros Hc Hb. unfold broadcast_update.
  rewrite bool_decide_false by set_solver. simpl.
  apply elem_of_app. right. apply list_elem_of_fmap. exists c. split; [done|].
  apply list_elem_of_filter. split; [done|]. by apply elem_of_elements.
Qed.

Lemma broadcast_update_keeps data srv :
  broken (broadcast_update data srv) = broken srv /\
  (forall c, c ∈ connected_clients srv -> c ∉ broken srv ->
             c ∈ connected_clients (broadcast_update data srv)) /\
  (forall m, m ∈ sent srv -> m ∈ sent (broadcast_update data srv)).
Proof.
  unfold broadcast_update. case_bool_decide; [done|]. simpl.
  repeat split.
  - intros c Hc Hb. apply elem_of_difference. split; [done|].
    rewrite elem_of_list_to_set, list_elem_of_filter. tauto.
  - intros m Hm. apply elem_of_app. by left.
Qed.

Lemma broadcasts_reach datas srv c data :
  c ∈ connected_clients srv -> c ∉ broken srv -> data ∈ datas ->
  (c, data) ∈ sent (foldl (fun srv data => broadcast_update data srv) srv datas).
Proof.
  revert srv. induction datas as [|d rest IH]; intros srv Hc Hb Hin; simpl.
  - by apply elem_of_nil in Hin.
  - destruct (broadcast_update_keeps d srv) as (Hbr & Hconn & Hsent).
    apply elem_of_cons in Hin as [->|Hin].
    + assert (forall l s, (c, d) ∈ sent s ->
                (c, d) ∈ sent (foldl (fun srv data => broadcast_update data srv) s l))
        as Hmono.
      { induction l as [|d' l IHl]; intros s Hs; simpl; [done|].
        apply IHl. by apply broadcast_update_keeps. }
      apply Hmono. by apply broadcast_update_reaches.
    + apply IH; [by apply Hconn | by rewrite Hbr | done].
Qed.

(** When the event loop next runs, every task created so far reaches
    every open observer whose socket works. *)
Lemma run_pending_reaches srv c data :
  c ∈ connected_clients srv -> c ∉ broken srv -> data ∈ pending srv ->
  (c, data) ∈ sent (run_pending srv).
Proof. intros. unfold run_pending. by apply broadcasts_reach. Qed.

(** C2, as the code has it.  The hub broadcasts because the engine
    notifies the callback [start_server] registered, at the end of each
    run that returns; the command handler itself broadcasts nothing.  So a
    snapshot is broadcast exactly when the command makes a run complete,
    and then it is the pipeline as that run left it, sent to every open
    observer, the sender included.  A command that makes no run complete,
    such as [update_param] or [toggle_step] with an unknown step id,
    schedules no broadcast, and with an unknown step id it changes
    nothing at all. *)
Theorem broadcast_follows_completed_run (message : Message) (srv : Server)
    (v : AugView) (res : Result unit) (srv' : Server) :
  viewer srv = Some v ->
  _update_callbacks v = [broadcast_callback] ->
  ws_message message srv = (res, srv') ->
  exists v',
    viewer srv' = Some v' /\
    connected_clients srv' = connected_clients srv /\
    broken srv' = broken srv /\
    sent srv' = sent srv /\
    (completes_run message srv res ->
     pending srv' = (pending srv ++ [to_dict (pipeline v')])%list /\
     forall c, c ∈ connected_clients srv -> c ∉ broken srv ->
               (c, to_dict (pipeline v')) ∈ sent (run_pending srv')) /\
    (~ completes_run message srv res -> pending srv' = pending srv) /\
    (unknown_step message v -> srv' = srv).
Proof.
  intros Hv Hcb Hws.
  assert (forall st' : State,
            tasks st' = (pending srv ++ [to_dict (pipeline (self st'))])%list ->
            let s := server_after srv st' in
            pending s = (pending srv ++ [to_dict (pipeline (self st'))])%list /\
            forall c, c ∈ connected_clients srv -> c ∉ broken srv ->
                      (c, to_dict (pipeline (self st'))) ∈ sent (run_pending s))
    as Hdeliver.
  { intros st' Ht s. split; [done|]. intros c Hc Hb.
    apply run_pending_reaches; [done..|]. simpl. rewrite Ht.
    apply elem_of_app. right. apply list_elem_of_here. }
  unfold ws_message, completes_run, unknown_step in *. rewrite Hv in *.
  set (st := mkState v (ambient srv) (pending srv)) in *.
  destruct message as [sid param_name value|sid en| |].
  - (* update_param *)
    unfold on_viewer, bind in Hws. fold st in Hws.
    pose proof (update_step_param_cases sid param_name value st) as Hnr.
    destruct (update_step_param sid param_name value st) as [[b|] st'] eqn:Hu;
      [|done].
    pose proof (update_step_param_broadcast sid param_name value st b st' Hcb Hu)
      as Ht.
    simpl in Hws, Ht. simplify_eq. exists (self st'). simpl.
    conjs; [done..| | |].
    + intros [Hs Hb]. simplify_eq. rewrite Hs in Ht. simpl in Ht.
      split; [exact Ht | by apply (Hdeliver st')].
    + intros Hno. destruct b; [|done]. simpl in Ht.
      destruct (has_source v); [|done]. exfalso. by apply Hno.
    + intros Hunk. apply find_step_None in Hunk.
      rewrite (update_step_param_not_found sid param_name value st Hunk) in Hu.
      simplify_eq. by apply server_after_same.
  - (* toggle_step *)
    unfold on_viewer, bind in Hws. fold st in Hws.
    rewrite toggle_step_run in Hws. simpl in Hws.
    destruct (find_step (_transforms v) sid) as [i|] eqn:Hfind.
    + set (mid := mkState _ _ _) in Hws.
      pose proof (rerun_cases mid) as Hrc.
      destruct (rerun mid) as [[o|] st'] eqn:Hr; simpl in Hws; simplify_eq.
      * apply (rerun_broadcast mid o st' Hcb) in Hr. simpl in Hr.
        change (has_source (set_transforms _ v)) with (has_source v) in Hr.
        exists (self st'). simpl. conjs; [done..| | |].
        -- intros (Hs & _ & _). rewrite Hs in Hr.
           split; [exact Hr | by apply (Hdeliver st')].
        -- intros Hno. destruct (has_source v) eqn:Hs.
           ++ exfalso. apply Hno. conjs; eauto.
           ++ by subst.
        -- intros Hunk. apply find_step_None in Hunk. congruence.
      * exists (self st'). simpl. conjs; [done..| | |].
        -- intros (_ & _ & [=]).
        -- done.
        -- intros Hunk. apply find_step_None in Hunk. congruence.
    + simpl in Hws. simplify_eq. exists v. simpl. conjs; [done..| | |].
      * intros (_ & [? [=]] & _).
      * done.
      * intros _. by apply server_after_same.
  - (* rerun *)
    destruct (truthy (original_image v)) eqn:Htruthy.
    + unfold on_viewer, bind in Hws. fold st in Hws.
      unfold lift in Hws.
      destruct (from_option base64_to_image None (original_image v)) as [image|];
        simpl in Hws.
      * destruct (process_image image st) as [[out|] st'] eqn:Hp;
          simpl in Hws; simplify_eq.
        -- apply (process_image_broadcast image st out st' Hcb) in Hp.
           exists (self st'). simpl. conjs; [done..| | |].
           ++ intros _. split; [exact Hp | by apply (Hdeliver st')].
           ++ intros Hno. exfalso. by apply Hno.
           ++ done.
        -- apply process_image_raise in Hp.
           exists (self st'). simpl. conjs; [done..| | |].
           ++ intros [_ [=]].
           ++ done.
           ++ done.
      * simplify_eq. exists v. simpl. conjs; [done..| | |].
        -- intros [_ [=]].
        -- done.
        -- done.
    + simplify_eq. exists v. conjs; [done..| | |].
      * intros [[=] _].
      * done.
      * done.
  - simplify_eq. exists v. conjs; done.
Qed.

End Sync.

(** * Further properties of the code *)

(** ** Introspection: specifications and parameters *)

(** Every specification carries the name of its parameter. *)
Lemma spec_of_parameter_name param spec :
  spec_of_parameter param = Some spec ->
  spec !! "name" = Some (VStr (param_name param)).
Proof.
  unfold spec_of_parameter. intros H. cbv zeta in H.
  set (base := if String.eqb _ _ then _ else _) in H.
  assert (base !! "name" = Some (VStr (param_name param))) as Hbase.
  { subst base. destruct (String.eqb _ _), (param_annotation param);
      repeat (rewrite lookup_insert_ne by discriminate); apply lookup_insert_eq. }
  clearbody base.
  destruct (param_default param) as [d|]; [|by simplify_eq];
    repeat case_match; simplify_eq;
    repeat (rewrite lookup_insert_ne by discriminate); exact Hbase.
Qed.

(** Where an entry of the collected specifications comes from. *)
Lemma extract_loop_lookup ps specs k spec :
  extract_loop ps specs !! k = Some spec ->
  specs !! k = Some spec \/
  exists param, param ∈ ps /\ skipped_name (param_name param) = false /\
                param_name param = k /\ spec_of_parameter param = Some spec.
Proof.
  revert specs. induction ps as [|param rest IH]; intros specs H; simpl in H.
  { by left. }
  destruct (skipped_name (param_name param)) eqn:Hskip.
  { destruct (IH _ H) as [?|(q & ? & ?)]; [by left|].
    right. exists q. split; [by apply list_elem_of_further|done]. }
  destruct (spec_of_parameter param) as [s|] eqn:Hs; [|by left].
  destruct (IH _ H) as [Hl|(q & ? & ?)].
  - destruct (decide (param_name param = k)) as [Hk|Hk].
    + right. exists param. rewrite Hk, lookup_insert_eq in Hl.
      split; [apply list_elem_of_here|]. by simplify_eq.
    + left. by rewrite lookup_insert_ne in Hl.
  - right. exists q. split; [by apply list_elem_of_further|done].
Qed.

(** The loop over a signature in two parts: the second part is reached
    only when no parameter of the first makes the loop raise. *)
Lemma extract_loop_app pre post specs :
  extract_loop (pre ++ post) specs =
  if forallb (fun param => skipped_name (param_name param)
                           || bool_decide (is_Some (spec_of_parameter param))) pre
  then extract_loop post (extract_loop pre specs)
  else extract_loop pre specs.
Proof.
  revert specs. induction pre as [|param rest IH]; intros specs; simpl; [done|].
  destruct (skipped_name (param_name param)); simpl; [apply IH|].
  destruct (spec_of_parameter param) as [s|]; simpl; [|done].
  rewrite ?bool_decide_eq_true_2 by eauto. apply IH.
Qed.

(** X1.  A numeric default decides the type and the bounds of a
    specification, whatever the name and the annotation of the parameter:
    a float default [f] gives type ["float"], minimum [0.0], maximum
    [max(1.0, f * 2)] and step [0.01]; an int default [z] gives type
    ["int"], minimum [0], maximum [max(100, z * 2)] and step [1]. *)
Theorem numeric_default_decides_bounds (n : string) (a : Annotation) :
  (forall f, exists spec,
     spec_of_parameter (mkParam n a (Some (VFloat f))) = Some spec /\
     spec !! "type" = Some (VStr "float") /\
     spec !! "min" = Some (VFloat 0) /\
     spec !! "max" = Some (VFloat (py_max_float 1 (PrimFloat.mul f 2))) /\
     spec !! "step" = Some (VFloat 0.01) /\
     spec !! "default" = Some (VFloat f)) /\
  (forall z, exists spec,
     spec_of_parameter (mkParam n a (Some (VInt z))) = Some spec /\
     spec !! "type" = Some (VStr "int") /\
     spec !! "min" = Some (VInt 0) /\
     spec !! "max" = Some (VInt (Z.max 100 (z * 2))) /\
     spec !! "step" = Some (VInt 1) /\
     spec !! "default" = Some (VInt z)).
Proof.
  split; intros x; (eexists; split; [reflexivity|]);
    repeat split; repeat (rewrite lookup_insert_ne by discriminate);
    apply lookup_insert_eq.
Qed.

(** X4.  Whatever its annotation and its default, the specification of
    the parameter [p] carries the label ["Probability"] and the flag
    [is_probability]; it keeps the step [0.05] unless the default is a
    float or an int. *)
Theorem probability_parameter_is_flagged (a : Annotation) (d : option Value)
    (spec : gmap string Value) :
  spec_of_parameter (mkParam "p" a d) = Some spec ->
  spec !! "is_probability" = Some (VBool true) /\
  spec !! "label" = Some (VStr "Probability") /\
  match d with
  | Some (VFloat _) | Some (VInt _) => True
  | _ => spec !! "step" = Some (VFloat 0.05)
  end.
Proof.
  unfold spec_of_parameter. simpl. intros H.
  destruct d as [d|]; [|simplify_eq; repeat split;
    repeat (rewrite lookup_insert_ne by discriminate); apply lookup_insert_eq].
  repeat case_match; simplify_eq; repeat split;
    repeat (rewrite lookup_insert_ne by discriminate); apply lookup_insert_eq.
Qed.

Section Introspection.
Context `{RT : Runtime}.
Local Open Scope method_scope.

(** X2.  Every entry of the specifications [_extract_param_specs]
    returns belongs to a parameter the constructor declares: it is built
    from that parameter, carries its name, and is never an entry for
    [self], [args] or [kwargs]. *)
Theorem specs_describe_declared_parameters (transform : Transform) (k : string)
    (spec : gmap string Value) :
  _extract_param_specs transform !! k = Some spec ->
  skipped_name k = false /\
  spec !! "name" = Some (VStr k) /\
  exists ps param,
    init_signature transform = Some ps /\ param ∈ ps /\
    param_name param = k /\ spec_of_parameter param = Some spec.
Proof.
  unfold _extract_param_specs. intros H.
  destruct (init_signature transform) as [ps|]; [|by rewrite lookup_empty in H].
  apply extract_loop_lookup in H as [H|(param & Hin & Hskip & <- & Hspec)].
  { by rewrite lookup_empty in H. }
  split; [done|]. split; [by apply spec_of_parameter_name|]. eauto 10.
Qed.

(** X3.  A constructor parameter whose default is a numpy array makes
    the comparison with [inspect.Parameter.empty] raise: the extraction
    returns the specifications collected before that parameter, and
    neither it nor any later parameter is described. *)
Theorem array_default_truncates_specs (transform : Transform)
    (pre post : list Param) (param : Param) :
  init_signature transform = Some (pre ++ param :: post)%list ->
  skipped_name (param_name param) = false ->
  param_default param = Some VArray ->
  _extract_param_specs transform = extract_loop pre ∅ /\
  forall k, is_Some (_extract_param_specs transform !! k) ->
            exists q, q ∈ pre /\ param_name q = k.
Proof.
  intros Hsig Hskip Hd.
  assert (_extract_param_specs transform = extract_loop pre ∅) as Heq.
  { unfold _extract_param_specs. rewrite Hsig, extract_loop_app.
    destruct (forallb _ pre); [|done]. simpl. rewrite Hskip.
    unfold spec_of_parameter. by rewrite Hd. }
  split; [done|]. intros k [spec Hk]. rewrite Heq in Hk.
  apply extract_loop_lookup in Hk as [Hk|(q & ? & ? & ? & ?)]; [|eauto].
  by rewrite lookup_empty in Hk.
Qed.

(** X5.  [_get_transform_params] collects exactly the attributes whose
    name does not start with an underscore, that can be read, and whose
    value is an int, float, bool, str, tuple or list. *)
Theorem params_are_the_public_plain_attributes (transform : Transform)
    (k : string) (v : Value) :
  _get_transform_params transform !! k = Some v <->
  attrs transform !! k = Some (AttrValue v) /\
  startswith_underscore k = false /\
  isinstance_serializable v = true.
Proof.
  unfold _get_transform_params. rewrite map_lookup_imap.
  destruct (attrs transform !! k) as [[|w]|]; simpl.
  - destruct (startswith_underscore k); split;
      [done|intros [? _]; done|done|intros [? _]; done].
  - destruct (startswith_underscore k) eqn:Hu.
    { split; [done|]. intros (_ & ? & _). done. }
    destruct w; simpl; split; try done; try (intros ([= <-] & _ & ?); done);
      intros [= <-]; done.
  - split; [done|]. intros [? _]. done.
Qed.

(** X6.  The adapters of transforms.py and the viewer collect the same
    parameters: the additional test [not isinstance(value, type)] of the
    viewer excludes nothing that the other tests let through. *)
Theorem adapter_params_agree_with_viewer (transform : Transform) :
  BaseAdapter._extract_params transform = _get_transform_params transform.
Proof.
  unfold BaseAdapter._extract_params, _get_transform_params.
  apply map_eq. intros k. rewrite !map_lookup_imap.
  destruct (attrs transform !! k) as [[|w]|]; simpl; [| |done].
  - by destruct (startswith_underscore k).
  - destruct (startswith_underscore k); [done|]. by destruct w.
Qed.

End Introspection.

(** ** The pipeline store *)

Section Store.
Context `{RT : Runtime}.
Local Open Scope method_scope.
#[local] Existing Instance same_config_preorder.
#[local] Existing Instance same_entry_preorder.
#[local] Existing Instance evolves_preorder.

(** [add_transform], run. *)
Lemma add_transform_run transform name st :
  add_transform transform name st =
  match _get_probability transform with
  | Some probability =>
      let step :=
        mkStep (uuid4 (rng st)).1 (name_or name (class_name transform))
          (if str_contains "albumentations" (t_module transform) then "albumentations"
           else if str_contains "torchvision" (t_module transform) then "torchvision"
           else "custom")
          (_get_transform_params transform) (_extract_param_specs transform)
          None None true true probability in
      (Ok step,
       mkState (set_transforms (_transforms (self st) ++ [(transform, step)]) (self st))
         (uuid4 (rng st)).2 (tasks st))
  | None => (Raise, st)
  end.
Proof.
  unfold add_transform, bind, lift, ret, raise.
  destruct (_get_probability transform); [|done].
  by destruct (uuid4 (rng st)).
Qed.

(** X8.  [add_transform] appends exactly one step, after the existing
    ones, which it leaves as they are; the new step has a fresh id, is
    enabled, and has no images yet.  The images of the pipeline are
    untouched and no callback is called.  It raises only when
    [float(transform.p)] does, and then nothing has changed. *)
Theorem add_transform_appends_one_step (transform : Transform)
    (name : option string) (st : State) :
  match add_transform transform name st with
  | (Ok step, st') =>
      _transforms (self st') = (_transforms (self st) ++ [(transform, step)])%list /\
      steps (pipeline (self st')) = (steps (pipeline (self st)) ++ [step])%list /\
      step_id step = (uuid4 (rng st)).1 /\
      enabled step = true /\ applied step = true /\
      input_image step = None /\ output_image step = None /\
      original_image (self st') = original_image (self st) /\
      final_image (self st') = final_image (self st) /\
      tasks st' = tasks st
  | (Raise, st') =>
      st' = st /\
      exists v, attrs transform !! "p" = Some (AttrValue v) /\ py_float v = None
  end.
Proof.
  rewrite add_transform_run. unfold _get_probability.
  destruct (attrs transform !! "p") as [[|v]|] eqn:Hp; simpl;
    try (rewrite fmap_app; done).
  destruct (py_float v) eqn:Hf; simpl; [rewrite fmap_app; done|eauto].
Qed.

(** X7.  For a transform of albumentations, or of neither library, the
    adapter of transforms.py applies the transform exactly as the
    execution engine does for the step [add_transform] created for it. *)
Theorem adapters_apply_as_the_engine_does (transform : Transform)
    (name : option string) (st : State) (step : TransformStep) (st' : State)
    (image : Obj) (r : Rand) :
  add_transform transform name st = (Ok step, st') ->
  str_contains "albumentations" (t_module transform) = true \/
  str_contains "torchvision" (t_module transform) = false ->
  call_transform transform step image r =
  if str_contains "albumentations" (t_module transform)
  then AlbumentationsAdapter.apply transform image r
  else CustomAdapter.apply transform image r.
Proof.
  rewrite add_transform_run. intros H Hkind.
  destruct (_get_probability transform); [|done]. simpl in H. simplify_eq.
  unfold call_transform. simpl.
  destruct (str_contains "albumentations" (t_module transform)); [done|].
  destruct Hkind as [?| ->]; done.
Qed.

(** The loop of [wrap_compose]: the transforms are added one after the
    other until [add_transform] raises. *)
Lemma add_each_run ts st :
  exists added,
    _transforms (self (add_each ts st).2) = (_transforms (self st) ++ added)%list /\
    Forall (fun e => step_name e.2 = class_name e.1 /\ enabled e.2 = true /\
                     input_image e.2 = None /\ output_image e.2 = None) added /\
    tasks (add_each ts st).2 = tasks st /\
    match (add_each ts st).1 with
    | Ok _ => fst <$> added = ts
    | Raise =>
        exists before t after,
          ts = (before ++ t :: after)%list /\
          fst <$> added = before /\
          Forall (fun t0 => is_Some (_get_probability t0)) before /\
          _get_probability t = None
    end.
Proof.
  revert st. induction ts as [|t rest IH]; intros st; simpl.
  { exists []. rewrite app_nil_r. repeat split; try done. }
  unfold bind. rewrite add_transform_run.
  destruct (_get_probability t) as [pr|] eqn:Hpr; simpl.
  - match goal with
    | |- context [add_each rest ?s] =>
        destruct (IH s) as (added & Hts & Hall & Htasks & Hres)
    end.
    simpl in *.
    eexists (_ :: added). rewrite Hts, <- app_assoc. simpl.
    split; [reflexivity|].
    split; [apply Forall_cons; split; [|done]; done|].
    split; [done|].
    destruct (add_each rest _) as [[[]|] st']; simpl in *.
    + f_equal. exact Hres.
    + destruct Hres as (before & t0 & after & -> & Hadded & Hok & Hbad).
      exists (t :: before), t0, after.
      split; [done|]. split; [f_equal; exact Hadded|]. split; [|done].
      apply Forall_cons. split; [by rewrite Hpr|done].
  - exists []. rewrite app_nil_r. split; [done|]. split; [done|]. split; [done|].
    exists [], t, rest. repeat split; try done.
Qed.

(** X9.  [wrap_compose] adds the transforms of the composed pipeline in
    their order, after the steps the viewer already has, each under its
    class name and enabled, and calls no callback.  It returns when every
    [add_transform] does, and then all the transforms were added.  It
    raises when [add_transform] raises on one of them, the first whose
    [float(t.p)] raises: then exactly the transforms before that one were
    added, and they stay added. *)
Theorem wrap_compose_adds_in_order (compose : Compose) (st : State) :
  exists added,
    _transforms (self (wrap_compose compose st).2)
      = (_transforms (self st) ++ added)%list /\
    Forall (fun e => step_name e.2 = class_name e.1 /\ enabled e.2 = true /\
                     input_image e.2 = None /\ output_image e.2 = None) added /\
    tasks (wrap_compose compose st).2 = tasks st /\
    match (wrap_compose compose st).1 with
    | Ok returned => returned = compose /\ fst <$> added = transforms_of compose
    | Raise =>
        exists before t after,
          transforms_of compose = (before ++ t :: after)%list /\
          fst <$> added = before /\
          Forall (fun t0 => is_Some (_get_probability t0)) before /\
          _get_probability t = None
    end.
Proof.
  destruct (add_each_run (transforms_of compose) st)
    as (added & Hts & Hall & Htasks & Hres).
  exists added. unfold wrap_compose, bind, ret.
  destruct (add_each (transforms_of compose) st) as [[[]|] st'] eqn:Hrun; simpl in *;
    done.
Qed.

(** The position [find_step] returns is the first one with the id. *)
Lemma find_step_Some ts sid i :
  find_step ts sid = Some i ->
  exists e, ts !! i = Some e /\ step_id e.2 = sid /\
    forall j e', (j < i)%nat -> ts !! j = Some e' -> step_id e'.2 <> sid.
Proof.
  revert i. induction ts as [|[t s] rest IH]; intros i H; simpl in H; [done|].
  destruct (String.eqb (step_id s) sid) eqn:Heq.
  - simplify_eq. exists (t, s). split; [done|].
    split; [by apply String.eqb_eq|]. intros j e' Hj. lia.
  - destruct (find_step rest sid) as [i'|]; simpl in H; [|done]. simplify_eq.
    destruct (IH i' eq_refl) as (e & He & Hid & Hfirst).
    exists e. split; [done|]. split; [done|].
    intros [|j] e' Hj He'; simpl in He'.
    + simplify_eq. simpl. by apply String.eqb_neq.
    + apply (Hfirst j); [lia|done].
Qed.

Lemma enabled_after_alter (ts : list (Transform * TransformStep)) (i : nat) en :
  (enabled ∘ snd) <$> alter (fun e => (e.1, set_enabled en e.2)) i ts
  = <[i := en]> ((enabled ∘ snd) <$> ts).
Proof.
  revert i. induction ts as [|e rest IH]; intros [|i]; simpl; try done.
  f_equal. apply IH.
Qed.

Lemma same_entry_enabled (l l' : list (Transform * TransformStep)) :
  Forall2 same_entry l l' -> (enabled ∘ snd) <$> l' = (enabled ∘ snd) <$> l.
Proof.
  induction 1 as [|e e' l l' (_ & _ & _ & _ & He & _) _ IH]; simpl; [done|].
  f_equal; [exact He|exact IH].
Qed.

(** X10.  [toggle_step] with an id no step has returns [False] and
    changes nothing.  Otherwise it sets [enabled] on the first step with
    that id and on no other step, whether the re-run that follows returns
    or raises, and it never returns [False]. *)
Theorem toggle_sets_the_first_match (sid : string) (en : bool) (st : State) :
  match find_step (_transforms (self st)) sid with
  | None => toggle_step sid en st = (Ok false, st)
  | Some i =>
      (exists e, _transforms (self st) !! i = Some e /\ step_id e.2 = sid) /\
      (forall j e, (j < i)%nat -> _transforms (self st) !! j = Some e ->
                   step_id e.2 <> sid) /\
      (toggle_step sid en st).1 <> Ok false /\
      (enabled ∘ snd) <$> _transforms (self (toggle_step sid en st).2)
        = <[i := en]> ((enabled ∘ snd) <$> _transforms (self st))
  end.
Proof.
  rewrite toggle_step_run.
  destruct (find_step (_transforms (self st)) sid) as [i|] eqn:Hfind; [|done].
  destruct (find_step_Some _ _ _ Hfind) as (e & He & Hid & Hfirst).
  split; [eauto|]. split; [done|].
  match goal with |- context [rerun ?m] => set (mid := m) end.
  pose proof (rerun_evolves mid) as (_ & _ & _ & _ & Hts).
  apply same_entry_enabled in Hts. subst mid. simpl in Hts.
  rewrite enabled_after_alter in Hts.
  destruct (rerun _) as [[o|] st']; simpl in *; done.
Qed.


(** X12.  When the value given for ["p"] is accepted by [setattr] but
    rejected by [float], [update_step_param] returns [False] after it has
    written: the attribute of the transform and [params["p"]] hold the
    value, [probability] is as before, and nothing was re-run or
    broadcast. *)
Theorem rejected_probability_is_still_written (sid : string) (v : Value)
    (st : State) (i : nat) (transform transform' : Transform) (step : TransformStep) :
  find_step (_transforms (self st)) sid = Some i ->
  _transforms (self st) !! i = Some (transform, step) ->
  setattr transform "p" v = Some transform' ->
  py_float v = None ->
  update_step_param sid "p" v st =
  (Ok false,
   mkState
     (set_transforms
        (<[i := (transform', set_param "p" v step)]> (_transforms (self st)))
        (self st))
     (rng st) (tasks st)).
Proof.
  intros Hfind Hi Hset Hf.
  unfold update_step_param, bind, get_self, try_except. rewrite Hfind. simpl.
  unfold setattr_entry. rewrite Hi, Hset. simpl.
  rewrite alter_insert_same by by eapply lookup_lt_Some.
  unfold lift. by rewrite Hf.
Qed.

(** X13.  As long as no image was processed, [rerun] returns [None]
    and changes nothing, and [toggle_step] on a known step only sets
    [enabled] and returns [True]: nothing runs and no callback is called. *)
Theorem without_a_source_nothing_runs (st : State) :
  has_source (self st) = false ->
  rerun st = (Ok None, st) /\
  forall sid en i,
    find_step (_transforms (self st)) sid = Some i ->
    toggle_step sid en st =
    (Ok true,
     mkState
       (set_transforms
          (alter (fun e => (e.1, set_enabled en e.2)) i (_transforms (self st)))
          (self st))
       (rng st) (tasks st)).
Proof.
  intros Hsrc.
  assert (forall st0, has_source (self st0) = false -> rerun st0 = (Ok None, st0))
    as Hrerun.
  { intros st0 H0. unfold rerun, bind, get_self, has_source in *.
    destruct (_last_image (self st0)); [done|]. by rewrite H0. }
  split; [by apply Hrerun|].
  intros sid en i Hfind. rewrite toggle_step_run, Hfind.
  by rewrite Hrerun.
Qed.

(** X14.  After [process_image] returned, the viewer caches the array
    the run started from (the image itself, or [np.array] of a PIL image),
    and [rerun] is [process_image] on that cached array. *)
Theorem rerun_repeats_the_last_run (image : Obj) (st : State) (out : Obj)
    (st' : State) :
  process_image image st = (Ok out, st') ->
  exists src,
    (if isinstance_Image image then np_array image else Some image) = Some src /\
    _last_image (self st') = Some src /\
    rerun st' = match process_image src st' with
                | (Ok out', st'') => (Ok (Some out'), st'')
                | (Raise, st'') => (Raise, st'')
                end.
Proof.
  intros H.
  apply process_image_ok in H
    as (src & b & bf & ts' & Hsrc & _ & _ & _ & _ & Hself & _).
  assert (_last_image (self st') = Some src) as Hlast by (by rewrite Hself).
  exists src. split; [done|]. split; [done|].
  unfold rerun, bind, get_self, ret. simpl. rewrite Hlast.
  by destruct (process_image src st') as [[?|] ?].
Qed.

Lemma same_entry_probability (l l' : list (Transform * TransformStep)) :
  Forall2 same_entry l l' -> (probability ∘ snd) <$> l' = (probability ∘ snd) <$> l.
Proof.
  induction 1 as [|e e' l l' (_ & _ & _ & _ & _ & _ & _ & He) _ IH]; simpl; [done|].
  f_equal; [exact He|exact IH].
Qed.

(** X24.  [update_step_param] for a parameter other than ["p"] leaves
    the [probability] of every step as it was, whether it returns [True]
    or [False]. *)
Theorem other_parameters_leave_probability (sid k : string) (v : Value)
    (st : State) :
  k <> "p" ->
  (probability ∘ snd) <$> _transforms (self (update_step_param sid k v st).2)
  = (probability ∘ snd) <$> _transforms (self st).
Proof.
  intros Hk. apply String.eqb_neq in Hk.
  unfold update_step_param, bind, get_self, try_except.
  destruct (find_step (_transforms (self st)) sid) as [i|]; simpl; [|done].
  unfold setattr_entry.
  destruct (_transforms (self st) !! i) as [[t s]|] eqn:Hi; simpl; [|done].
  destruct (setattr t k v) as [t'|]; simpl; [|done].
  rewrite alter_insert_same by by eapply lookup_lt_Some. simpl.
  rewrite Hk. unfold ret at 1.
  match goal with |- context [rerun ?m] => set (mid := m) end.
  pose proof (rerun_evolves mid) as (_ & _ & _ & _ & Hts).
  apply same_entry_probability in Hts.
  assert ((probability ∘ snd) <$> _transforms (self mid)
          = (probability ∘ snd) <$> _transforms (self st)) as Hmid.
  { subst mid. simpl. rewrite list_fmap_insert. simpl.
    apply list_insert_id. by rewrite list_lookup_fmap, Hi. }
  rewrite Hmid in Hts.
  destruct (rerun mid) as [[o|] st']; simpl in *; done.
Qed.

End Store.

(** ** Runs *)

Section Runs.
Context `{RT : Runtime}.
Local Open Scope method_scope.

(** An iteration that completes writes all the fields a run writes: what
    the step held in them before does not matter. *)
Lemma run_step_same transform step step2 current_image r step' cur' r' :
  same_config step step2 ->
  run_step transform step current_image r = (step', Some cur', r') ->
  run_step transform step2 current_image r = (step', Some cur', r').
Proof.
  intros (Hid & Hname & Hty & Hen & Hp & Hs & Hpr).
  destruct step, step2. simpl in *. subst.
  unfold run_step, try_body, call_transform. simpl.
  destruct (negb _).
  - destruct (image_to_base64 current_image); [|done]. simpl. done.
  - destruct (image_to_base64 current_image); [|done]. simpl.
    destruct (copy current_image); [|done].
    repeat case_match; intros; simplify_eq; done.
Qed.

Lemma run_steps_same ts ts2 current_image r ts' out r' :
  Forall2 same_entry ts ts2 ->
  run_steps ts current_image r = (ts', Some out, r') ->
  run_steps ts2 current_image r = (ts', Some out, r').
Proof.
  intros Hts. revert current_image r ts'.
  induction Hts as [|[t s] [t2 s2] l l2 [Ht Hcfg] _ IH];
    intros current_image r ts' H; simpl in *; [done|]. subst t2.
  destruct (run_step t s current_image r) as [[s' [cur|]] r1] eqn:Hstep; [|done].
  rewrite (run_step_same _ _ _ _ _ _ _ _ Hcfg Hstep).
  destruct (run_steps l cur r1) as [[l' [res|]] r2] eqn:Hrest; [|by simplify_eq].
  simplify_eq. by rewrite (IH _ _ _ Hrest).
Qed.

(** X15.  A run that returns leaves nothing of earlier runs behind:
    started on the same image and random state from a viewer that differs
    only in what earlier runs wrote ([input_image], [output_image],
    [applied], the images of the pipeline, the cached array), it returns
    the same image and leaves the same pipeline. *)
Theorem completed_run_forgets_earlier_runs (image : Obj) (st st2 : State)
    (out : Obj) (st' : State) :
  evolves same_entry st st2 ->
  rng st2 = rng st ->
  process_image image st = (Ok out, st') ->
  exists st2',
    process_image image st2 = (Ok out, st2') /\
    pipeline (self st2') = pipeline (self st') /\
    rng st2' = rng st'.
Proof.
  intros (Hname & Hid & Hpname & Hcbs & Hts) Hrng H.
  apply process_image_ok in H
    as (src & b & bf & ts' & Hsrc & Hcopy & Hb & Hrun & Hbf & Hself & _).
  pose proof (run_steps_same _ _ _ _ _ _ _ Hts Hrun) as Hrun2.
  rewrite <- Hrng in Hrun2.
  pose proof (process_image_returns image st2 src b ts' out (rng st') bf
                Hsrc Hcopy Hb Hrun2 Hbf) as Hres.
  exists (process_image image st2).2.
  assert (process_image image st2 = (Ok out, (process_image image st2).2)) as Heq.
  { destruct (process_image image st2). simpl in *. by subst. }
  split; [exact Heq|].
  apply process_image_ok in Heq
    as (src2 & b2 & bf2 & ts2' & Hsrc2 & _ & Hb2 & Hrun2' & Hbf2 & Hself2 & _).
  rewrite Hsrc in Hsrc2. simplify_eq.
  split; [|congruence].
  unfold pipeline. rewrite Hself2, Hself. simpl. congruence.
Qed.

Lemma run_steps_disabled ts current_image r b :
  Forall (fun e => enabled e.2 = false) ts ->
  image_to_base64 current_image = Some b ->
  run_steps ts current_image r =
  ((fun e => (e.1, set_applied false
                     (set_output_image (Some b) (set_input_image (Some b) e.2))))
     <$> ts, Some current_image, r).
Proof.
  intros Hall Hb. induction Hall as [|[t s] l Hen _ IH]; simpl; [done|].
  rewrite run_step_disabled by done. rewrite Hb, IH. done.
Qed.

(** X16.  On a pipeline without steps, or whose steps are all disabled,
    [process_image] returns the array it started from as soon as that
    array can be copied and encoded: [final_image] equals
    [original_image], every step has both images equal to it and
    [applied] false, and the random state is not consumed. *)
Theorem run_of_disabled_steps_is_identity (image : Obj) (st : State)
    (src : Obj) (b : string) :
  Forall (fun e => enabled e.2 = false) (_transforms (self st)) ->
  (if isinstance_Image image then np_array image else Some image) = Some src ->
  hasattr_copy src = true ->
  image_to_base64 src = Some b ->
  exists st',
    process_image image st = (Ok src, st') /\
    original_image (self st') = Some b /\
    final_image (self st') = Some b /\
    Forall (fun e => input_image e.2 = Some b /\ output_image e.2 = Some b /\
                     applied e.2 = false) (_transforms (self st')) /\
    length (_transforms (self st')) = length (_transforms (self st)) /\
    rng st' = rng st.
Proof.
  intros Hall Hsrc Hcopy Hb.
  unfold process_image, bind, lift, modify_self, run_loop, _notify_update, ret, raise.
  rewrite Hsrc. simpl. unfold copy. rewrite Hcopy. simpl. rewrite Hb. simpl.
  rewrite (run_steps_disabled _ _ _ b) by done. simpl. rewrite Hb. simpl.
  eexists. split; [reflexivity|]. simpl.
  split; [done|]. split; [done|]. split; [|by rewrite length_fmap].
  apply Forall_fmap. apply Forall_true. intros e. done.
Qed.

Lemma run_step_linked transform step current_image r step' cur' r' :
  run_step transform step current_image r = (step', Some cur', r') ->
  input_image step' = image_to_base64 current_image /\
  (output_image step' = image_to_base64 cur' \/ fell_back step').
Proof.
  unfold run_step, try_body, fell_back.
  destruct (negb (enabled step)).
  - destruct (image_to_base64 current_image) as [b|] eqn:Hb; [|done].
    intros [= <- <- <-]. simpl. rewrite Hb. auto.
  - destruct (image_to_base64 current_image) as [b|] eqn:Hb; [|done].
    destruct (copy current_image); [|done].
    destruct (call_transform _ _ _ _) as [[c1|] r1];
      [|intros [= <- <- <-]; simpl; auto].
    destruct (ensure_dtype c1) as [c2|]; [|intros [= <- <- <-]; simpl; auto].
    destruct (ensure_channels c2) as [c3|]; [|intros [= <- <- <-]; simpl; auto].
    destruct (image_to_base64 c3) as [out|] eqn:Hout;
      [|intros [= <- <- <-]; simpl; auto].
    destruct (_check_transform_applied _ c3) as [a|];
      intros [= <- <- <-]; simpl; auto.
Qed.

Lemma run_steps_linked ts current_image r ts' out r' :
  run_steps ts current_image r = (ts', Some out, r') ->
  linked (image_to_base64 current_image) (snd <$> ts') (image_to_base64 out).
Proof.
  revert current_image r ts'. induction ts as [|[t s] rest IH];
    intros current_image r ts' H; simpl in H.
  { by simplify_eq. }
  destruct (run_step t s current_image r) as [[s' [cur|]] r1] eqn:Hstep; [|done].
  destruct (run_steps rest cur r1) as [[rest' res] r2] eqn:Hrest.
  simplify_eq. apply run_step_linked in Hstep as [Hin Hout].
  rewrite fmap_cons. simpl. split; [done|].
  exists (image_to_base64 cur). split; [done|]. by eapply IH.
Qed.

(** X23.  In a run that returns, the snapshots are linked: the input of
    the first step is [original_image]; the input of every later step is
    the output of the step before it, unless that step fell back to its
    input with [applied] false; [final_image] is the encoding of the image
    returned, and it is the output of the last step unless that step fell
    back (on a pipeline without steps it is [original_image]). *)
Theorem snapshots_of_a_run_are_linked (image : Obj) (st : State) (out : Obj)
    (st' : State) :
  process_image image st = (Ok out, st') ->
  final_image (self st') = image_to_base64 out /\
  linked (original_image (self st')) (steps (pipeline (self st')))
    (final_image (self st')).
Proof.
  intros H. apply process_image_ok in H
    as (src & b & bf & ts' & Hsrc & Hcopy & Hb & Hrun & Hbf & Hself & _).
  apply run_steps_linked in Hrun. rewrite Hself. simpl.
  rewrite Hb, Hbf in Hrun. by rewrite Hbf.
Qed.

End Runs.

(** ** The hub and its endpoints *)

Section Hub.
Context `{RT : Runtime}.
Local Open Scope method_scope.

(** X17.  [broadcast_update] sends the snapshot once to every connected
    observer whose socket works and to nobody else, and removes from
    [connected_clients] exactly the observers whose [send_text] raised. *)
Theorem broadcast_prunes_failed_observers (data : Pipeline) (srv : Server) :
  connected_clients (broadcast_update data srv)
    = connected_clients srv ∖ broken srv /\
  viewer (broadcast_update data srv) = viewer srv /\
  exists delivered,
    sent (broadcast_update data srv) = (sent srv ++ delivered)%list /\
    NoDup delivered /\
    forall c d, (c, d) ∈ delivered <->
                d = data /\ c ∈ connected_clients srv /\ c ∉ broken srv.
Proof.
  unfold broadcast_update. case_bool_decide as Hempty.
  - split.
    { rewrite Hempty. apply set_eq. intros c.
      rewrite elem_of_difference, elem_of_empty. tauto. }
    split; [done|].
    exists []. rewrite app_nil_r. split; [done|]. split; [constructor|].
    intros c d. rewrite Hempty, elem_of_nil, elem_of_empty. tauto.
  - simpl. split.
    { apply set_eq. intros c.
      rewrite !elem_of_difference, elem_of_list_to_set, list_elem_of_filter,
        elem_of_elements. tauto. }
    split; [done|].
    eexists. split; [reflexivity|]. split.
    + apply NoDup_fmap_2; [by intros ?? [=]|].
      apply NoDup_filter, NoDup_elements.
    + intros c d. rewrite list_elem_of_fmap. split.
      * intros (c' & [= -> ->] & Hc).
        apply list_elem_of_filter in Hc as [? Hc]. by apply elem_of_elements in Hc.
      * intros (-> & Hc & Hb). exists c. split; [done|].
        apply list_elem_of_filter. by rewrite elem_of_elements.
Qed.

(** X18.  A callback that raises is skipped by [_notify_update]: the
    method returns, and the callbacks registered before and after it have
    the effect they would have without it. *)
Theorem raising_callback_is_skipped (v : AugView) (bad : Callback)
    (before after : list Callback) (r : Rand) (pending : list Pipeline) :
  (forall p q, bad p q = None) ->
  _notify_update (mkState (set_callbacks (before ++ bad :: after) v) r pending)
  = (Ok tt,
     mkState (set_callbacks (before ++ bad :: after) v) r
       (notify_all (set_callbacks (before ++ after) v) pending)).
Proof.
  intros Hbad. unfold _notify_update, notify_all. simpl. f_equal. f_equal.
  rewrite !foldl_app. simpl. unfold pipeline at 2. simpl.
  fold (pipeline v). by rewrite Hbad.
Qed.

Lemma step_loop_find ts sid :
  step_loop (snd <$> ts) sid =
  from_option ApiReturn (ApiError 404 (Detail "Step not found"))
    (i ← find_step ts sid; snd <$> ts !! i).
Proof.
  induction ts as [|[t s] rest IH]; [done|].
  rewrite fmap_cons. simpl.
  destruct (String.eqb (step_id s) sid); [done|].
  rewrite IH. by destruct (find_step rest sid).
Qed.

(** X19.  [GET /api/step/{step_id}] returns the step that
    [update_step_param] and [toggle_step] address for the same id, the
    first one with it, and answers 404 exactly when they find none. *)
Theorem get_step_returns_the_addressed_step (sid : string) (srv : Server) :
  get_step sid srv =
  match viewer srv with
  | None => ApiError 404 (Detail "No pipeline registered")
  | Some v =>
      from_option ApiReturn (ApiError 404 (Detail "Step not found"))
        (i ← find_step (_transforms v) sid; snd <$> _transforms v !! i)
  end.
Proof.
  unfold get_step. destruct (viewer srv) as [v|]; [|done].
  apply step_loop_find.
Qed.

(** X20.  The commands of the request/response surface and those of the
    WebSocket endpoint are the same operations: [POST /api/rerun] and the
    message [rerun], [PUT .../toggle] and the message [toggle_step], [PUT
    .../params] with one parameter and the message [update_param] leave
    the server in the same state. *)
Theorem rest_and_websocket_commands_agree (srv : Server) :
  (rerun_pipeline srv).2 = (ws_message MsgRerun srv).2 /\
  (forall sid en,
     (api_toggle_step sid en srv).2 = (ws_message (MsgToggleStep sid en) srv).2) /\
  (forall sid k v,
     (update_step_params sid [(k, v)] srv).2
       = (ws_message (MsgUpdateParam sid k v) srv).2).
Proof.
  unfold rerun_pipeline, api_toggle_step, update_step_params, ws_message.
  destruct (viewer srv) as [v|]; [|done]. split; [|split].
  - destruct (truthy (original_image v)); simpl; [|done].
    unfold on_viewer, bind, lift, get_self, ret, raise.
    destruct (from_option base64_to_image None (original_image v)); simpl; [|done].
    by destruct (process_image _ _) as [[?|] ?].
  - intros sid en. unfold on_viewer, bind, ret.
    by destruct (toggle_step sid en _) as [[[]|] ?].
  - intros sid k val. unfold on_viewer. simpl. unfold bind, ret.
    by destruct (update_step_param sid k val _) as [[[]|] ?].
Qed.

(** X21.  Uploading the PNG that [original_image] encodes is a re-run:
    [POST /api/upload] with that file and [POST /api/rerun] leave the
    server in the same state and return the same pipeline. *)
Theorem upload_of_the_original_is_a_rerun (srv : Server) (v : AugView) (b : string) :
  viewer srv = Some v ->
  original_image v = Some b ->
  b <> "" ->
  (upload_image b srv).2 = (rerun_pipeline srv).2 /\
  forall p, (upload_image b srv).1 = ApiReturn p <->
            (rerun_pipeline srv).1 = ApiReturn p.
Proof.
  intros Hv Hb Hne. unfold upload_image, rerun_pipeline. rewrite Hv, Hb.
  assert (truthy (Some b) = true) as ->.
  { simpl. apply negb_true_iff. by apply String.eqb_neq. }
  simpl. unfold on_viewer, bind, lift, get_self, ret, raise, base64_to_image.
  destruct (open_png_b64 b) as [img|]; simpl; [|split; [done|by intros]].
  destruct (np_array img) as [arr|]; simpl; [|split; [done|by intros]].
  destruct (process_image arr _) as [[?|] ?]; simpl; split; try done; by intros.
Qed.

(** X22.  When the server's callback is the one registered on the
    viewer, the pipeline an ok response of [POST /api/rerun] or [POST
    /api/upload] carries is the pipeline of the viewer and the snapshot
    queued for broadcast by that request; an error response queues
    nothing. *)
Theorem ok_response_is_the_broadcast_snapshot (srv : Server) (v : AugView) :
  viewer srv = Some v ->
  _update_callbacks v = [broadcast_callback] ->
  (forall resp srv', rerun_pipeline srv = (resp, srv') ->
     match resp with
     | ApiReturn p =>
         pending srv' = (pending srv ++ [p])%list /\
         (to_dict ∘ pipeline) <$> viewer srv' = Some p
     | _ => pending srv' = pending srv
     end) /\
  (forall contents resp srv', upload_image contents srv = (resp, srv') ->
     match resp with
     | ApiReturn p =>
         pending srv' = (pending srv ++ [p])%list /\
         (to_dict ∘ pipeline) <$> viewer srv' = Some p
     | _ => pending srv' = pending srv
     end).
Proof.
  intros Hv Hcb.
  assert (forall status image resp srv',
            match on_viewer v
                    (process_image image ;;;
                     v' <- get_self ;; ret (to_dict (pipeline v')))
                    srv with
            | (Ok p, s) => (ApiReturn p, s)
            | (Raise, s) => (ApiError status DetailOfException, s)
            end = (resp, srv') ->
            match resp with
            | ApiReturn p =>
                pending srv' = (pending srv ++ [p])%list /\
                (to_dict ∘ pipeline) <$> viewer srv' = Some p
            | _ => pending srv' = pending srv
            end) as Hrun.
  { intros status image resp srv'. unfold on_viewer, bind, get_self, ret.
    destruct (process_image image _) as [[out|] st'] eqn:Hp; simpl;
      intros [= <- <-]; simpl.
    - apply process_image_broadcast in Hp; [|done]. simpl in Hp. by rewrite Hp.
    - by apply process_image_raise in Hp. }
  split.
  - intros resp srv'. unfold rerun_pipeline. rewrite Hv.
    destruct (truthy (original_image v)); simpl; [|by intros [= <- <-]].
    destruct (from_option base64_to_image None (original_image v))
      as [image|] eqn:Hd.
    + intros H. apply (Hrun 500%nat image). revert H.
      unfold on_viewer, bind, lift, get_self, ret, raise. simpl. done.
    + unfold on_viewer, bind, lift, raise. simpl. by intros [= <- <-].
  - intros contents resp srv'. unfold upload_image. rewrite Hv.
    destruct (open_png_b64 contents) as [img|] eqn:Ho;
      [|unfold on_viewer, bind, lift, raise; simpl; by intros [= <- <-]].
    destruct (np_array img) as [arr|] eqn:Ha;
      [|unfold on_viewer, bind, lift, raise, ret; simpl; rewrite Ha; simpl;
        by intros [= <- <-]].
    intros H. apply (Hrun 400%nat arr). revert H.
    unfold on_viewer, bind, lift, get_self, ret, raise. simpl. rewrite Ha. simpl.
    done.
Qed.

End Hub.

(** * The code at concrete inputs *)

Section Cases.
Import Mini.
Local Open Scope method_scope.

Lemma pair_of_projections {A B} (p : A * B) (a : A) :
  p.1 = a -> p = (a, p.2).
Proof. destruct p. simpl. by intros ->. Defined.


Lemma is_Some_of_test {A} (o : option A) :
  match o with Some _ => true | None => false end = true -> is_Some o.
Proof. destruct o; [eauto|discriminate]. Defined.

Lemma first_observer_open st : 1%nat ∈ connected_clients (serving st).
Proof. unfold serving. simpl. set_solver. Qed.

Lemma first_observer_works st : 1%nat ∉ broken (serving st).
Proof. unfold serving. simpl. set_solver. Qed.

(** [sepia_ran] is what [process_image] leaves of [sepia_only]. *)
Lemma sepia_ran_is_reached :
  pipeline (self (after (process_image gray_image) sepia_only))
    = pipeline (self sepia_ran) /\
  _last_image (self (after (process_image gray_image) sepia_only))
    = _last_image (self sepia_ran).
Proof. vm_compute. done. Qed.

(** [grayscale_ran] is what [process_image] leaves of [grayscale_only]. *)
Lemma grayscale_ran_is_reached :
  pipeline (self (after (process_image rgb_image) grayscale_only))
    = pipeline (self grayscale_ran) /\
  _last_image (self (after (process_image rgb_image) grayscale_only))
    = _last_image (self grayscale_ran).
Proof. vm_compute. done. Qed.

(** C1.  [InvertImg] declares [p: float = 0.5].  The entry for ["p"]
    keeps the forced type, minimum, label and probability flag, but its
    step is the 0.01 of the float-default rule, not 0.05; with the
    default [p = 1.0] (as [RandomCrop] declares) the maximum becomes 2.0. *)
Theorem p_spec_takes_step_of_float_default :
  spec_entry (_extract_param_specs invert_img) "p" "step" = Some (VFloat 0.01) /\
  spec_entry (_extract_param_specs invert_img) "p" "type" = Some (VStr "float") /\
  spec_entry (_extract_param_specs invert_img) "p" "min" = Some (VFloat 0) /\
  spec_entry (_extract_param_specs invert_img) "p" "max" = Some (VFloat 1) /\
  spec_entry (_extract_param_specs invert_img) "p" "label" = Some (VStr "Probability") /\
  spec_entry (_extract_param_specs invert_img) "p" "is_probability" = Some (VBool true) /\
  spec_entry (extract_loop [mkParam "p" AnnoFloat (Some (VFloat 1))] ∅) "p" "max"
    = Some (VFloat 2).
Proof. vm_compute. done. Qed.

(** C2, counterexample.  Two observers are open and the first one's
    socket works.  It sends [update_param] with a step id the pipeline
    does not have: the command fails, and when the event loop has run
    nothing has been sent to anyone. *)
Lemma failed_update_broadcasts_nothing :
  1%nat ∈ connected_clients (serving sepia_ran) /\
  (1%nat ∉ broken (serving sepia_ran)) /\
  sent (run_pending
          (after_message (MsgUpdateParam "nope" "intensity" (VFloat 0.5)) sepia_ran))
    = [].
Proof.
  split; [apply first_observer_open|]. split; [apply first_observer_works|].
  vm_compute. reflexivity.
Qed.

(** C2, at a concrete input: the first observer toggles the known step
    off; the run completes, and its snapshot is the one pending broadcast,
    which reaches the sender when the event loop runs. *)
Lemma toggle_is_broadcast :
  exists v',
    viewer (after_message (MsgToggleStep "step-0" false) sepia_ran) = Some v' /\
    pending (after_message (MsgToggleStep "step-0" false) sepia_ran)
      = [to_dict (pipeline v')] /\
    (1%nat, to_dict (pipeline v'))
      ∈ sent (run_pending (after_message (MsgToggleStep "step-0" false) sepia_ran)).
Proof.
  assert (fst (ws_message (MsgToggleStep "step-0" false) (serving sepia_ran)) = Ok tt)
    as Hres by (vm_compute; reflexivity).
  pose proof (broadcast_follows_completed_run (RT:=runtime) (MsgToggleStep "step-0" false)
                (serving sepia_ran) (self sepia_ran) (Ok tt)
                (after_message (MsgToggleStep "step-0" false) sepia_ran)
                eq_refl eq_refl (pair_of_projections _ _ Hres))
    as (v' & Hv' & _ & _ & _ & Hyes & _ & _).
  exists v'. split; [exact Hv'|].
  assert (completes_run (MsgToggleStep "step-0" false) (serving sepia_ran) (Ok tt))
    as Hc by (vm_compute; eauto).
  destruct (Hyes Hc) as [Hp Hd].
  split; [exact Hp|]. apply Hd.
  - apply first_observer_open.
  - apply first_observer_works.
Defined.

(** C3.  A grayscale image was processed, so the viewer caches the
    2-D array while [original_image] holds its 3-channel encoding.  The
    engine's [rerun] runs on the cached array, which [SepiaTransform]
    returns as it is; the [rerun] command of the hub decodes
    [original_image], runs on the 3-channel array, which the transform
    does alter, and replaces the cached source by the decoded one. *)
Theorem rerun_command_decodes_original_image :
  let hub := after_message MsgRerun sepia_ran in
  let engine := snd (on_viewer (self sepia_ran) rerun (serving sepia_ran)) in
  (_last_image <$> viewer engine) = Some (Some gray_image) /\
  (_last_image <$> viewer hub)
    = Some (Some (NdArray [1; 2; 3] [100; 100; 100; 50; 50; 50]%nat)) /\
  (final_image <$> viewer engine) = Some (image_to_base64 gray_image) /\
  (final_image <$> viewer hub)
    = Some (image_to_base64
              (NdArray [1; 2; 3] (sepia_pixels [100; 100; 100; 50; 50; 50]%nat))) /\
  (final_image <$> viewer hub) <> (final_image <$> viewer engine).
Proof. vm_compute. repeat split; done. Qed.



(** C5.  The only step of the pipeline returns a PIL image.  The
    assignment to [current_image] is made, then [current_image.dtype]
    raises: the step keeps [output_image = input_image], but the loop goes
    on with the PIL image, which [image_to_base64] encodes.  The run
    returns, and [final_image] is not the [output_image] of the last
    step. *)
Theorem final_image_differs_from_last_output :
  fst (process_image rgb_image pil_only)
    = Ok (PILImage [1; 2; 3] (inverted [100; 100; 100; 10; 20; 30]%nat)) /\
  last_output (pipeline (self pil_ran)) = image_to_base64 rgb_image /\
  final_image (self pil_ran)
    = image_to_base64 (NdArray [1; 2; 3] (inverted [100; 100; 100; 10; 20; 30]%nat)) /\
  final_image (self pil_ran) <> last_output (pipeline (self pil_ran)).
Proof. vm_compute. repeat split; done. Qed.



(** C8, counterexample.  The first step returns [None]; the disabled
    step behind it is reached with [None] as working image, whose encoding
    raises outside any [try]: the run raises, and the disabled step is
    left as it was, with [applied] true. *)
Lemma disabled_step_not_reached :
  fst (process_image rgb_image none_then_disabled) = Raise /\
  steps (pipeline (self (after (process_image rgb_image) none_then_disabled))) !! 1%nat
    = Some (set_enabled false (new_step "step-1" grayscale_transform)) /\
  enabled (set_enabled false (new_step "step-1" grayscale_transform)) = false /\
  applied (set_enabled false (new_step "step-1" grayscale_transform)) = true.
Proof. vm_compute. repeat split; done. Qed.

(** C8, at a concrete input: a disabled grayscale step in front of a
    step whose transform returns [None], run on an RGB image.  The run
    raises at its end, and the disabled step has been written. *)
Lemma disabled_grayscale_is_skipped :
  fst (process_image rgb_image disabled_then_none) = Raise /\
  exists post',
    _transforms (self (after (process_image rgb_image) disabled_then_none)) =
    (grayscale_transform,
     set_applied false
       (set_output_image (Some rgb_png)
          (set_input_image (Some rgb_png)
             (set_enabled false (new_step "step-0" grayscale_transform)))))
    :: post'.
Proof.
  split; [vm_compute; reflexivity|].
  assert (image_to_base64 rgb_image = Some rgb_png) as Hb
    by (vm_compute; reflexivity).
  pose proof (proj1 (disabled_step_is_passthrough (RT:=runtime) rgb_image
                       disabled_then_none []
                       [(returns_none, new_step "step-1" returns_none)]
                       grayscale_transform
                       (set_enabled false (new_step "step-0" grayscale_transform))
                       eq_refl eq_refl)
                rgb_image [] rgb_image 0%nat rgb_png eq_refl eq_refl
                (ex_intro _ rgb_png Hb) eq_refl Hb) as H.
  cbv zeta in H.
  destruct (run_steps [(returns_none, new_step "step-1" returns_none)] rgb_image 0%nat)
    as [[post' res] r_end].
  exists post'. exact (proj1 H).
Defined.

(** C9, at a concrete input: no step has the id ["nope"]. *)
Lemma update_of_missing_step :
  update_step_param "nope" "intensity" (VFloat 0.5) sepia_ran = (Ok false, sepia_ran).
Proof.
  assert (find_step (_transforms (self sepia_ran)) "nope" = None) as Hnone
    by (vm_compute; reflexivity).
  exact (update_unknown_step_is_noop (RT:=runtime) "nope" "intensity" (VFloat 0.5) sepia_ran
           (proj1 (find_step_None _ _) Hnone)).
Defined.



(** X2, at a concrete input: the entry for ["p"] of [InvertImg]. *)
Lemma invert_img_p_is_declared :
  exists spec,
    _extract_param_specs invert_img !! "p" = Some spec /\
    skipped_name "p" = false /\
    spec !! "name" = Some (VStr "p").
Proof.
  assert (is_Some (_extract_param_specs invert_img !! "p")) as [spec Hs]
    by (apply is_Some_of_test; vm_compute; reflexivity).
  exists spec. split; [exact Hs|].
  destruct (specs_describe_declared_parameters (RT:=runtime) invert_img "p" spec Hs)
    as (Hskip & Hname & _).
  split; [exact Hskip|exact Hname].
Defined.

(** X3, at a concrete input: the constructor of [Offset] declares
    [scale], then the array default [offset], then [clip]. *)
Lemma offset_specs_stop_at_the_array :
  _extract_param_specs offset_transform = extract_loop offset_signature_head ∅.
Proof.
  exact (proj1 (array_default_truncates_specs (RT:=runtime) offset_transform
                  offset_signature_head offset_signature_tail offset_parameter
                  eq_refl eq_refl eq_refl)).
Defined.

(** X4, at a concrete input: [p] with the default [None]. *)
Lemma p_with_none_default_is_flagged :
  exists spec,
    spec_of_parameter (mkParam "p" AnnoEmpty (Some VNone)) = Some spec /\
    spec !! "is_probability" = Some (VBool true) /\
    spec !! "step" = Some (VFloat 0.05).
Proof.
  eexists. split; [reflexivity|].
  destruct (probability_parameter_is_flagged AnnoEmpty (Some VNone) _ eq_refl)
    as (Hflag & _ & Hstep).
  split; [exact Hflag|exact Hstep].
Defined.

(** X7, at a concrete input: [GrayscaleTransform] on the RGB image. *)
Lemma grayscale_adapter_applies_as_engine :
  call_transform grayscale_transform (new_step "step-0" grayscale_transform)
    rgb_image 0%nat
  = CustomAdapter.apply grayscale_transform rgb_image 0%nat.
Proof.
  assert (fst (add_transform grayscale_transform None fresh)
          = Ok (new_step "step-0" grayscale_transform)) as Hres
    by (vm_compute; reflexivity).
  exact (adapters_apply_as_the_engine_does (RT:=runtime) grayscale_transform None
           fresh (new_step "step-0" grayscale_transform)
           (snd (add_transform grayscale_transform None fresh)) rgb_image 0%nat
           (pair_of_projections _ _ Hres) (or_intror eq_refl)).
Defined.


(** X12, at a concrete input: after a run on the RGB image, [p] of the
    grayscale step is set to a string that [float] rejects. *)
Lemma rejected_p_stays_on_grayscale :
  update_step_param "step-0" "p" (VStr "abc") grayscale_ran =
  (Ok false,
   mkState
     (set_transforms
        [(grayscale_with_p,
          set_param "p" (VStr "abc")
            (set_applied true
               (set_output_image
                  (Some (png_b64 [1; 2; 3]%nat [100; 100; 100; 20; 20; 20]%nat))
                  (set_input_image
                     (Some (png_b64 [1; 2; 3]%nat [100; 100; 100; 10; 20; 30]%nat))
                     (new_step "step-0" grayscale_transform)))))]
        (self grayscale_ran))
     (rng grayscale_ran) (tasks grayscale_ran)).
Proof.
  assert (find_step (_transforms (self grayscale_ran)) "step-0" = Some 0%nat) as Hfind
    by (vm_compute; reflexivity).
  assert (py_float (VStr "abc") = None) as Hf by (vm_compute; reflexivity).
  exact (rejected_probability_is_still_written (RT:=runtime) "step-0" (VStr "abc")
           grayscale_ran 0%nat grayscale_transform grayscale_with_p _
           Hfind eq_refl eq_refl Hf).
Defined.

(** X13, at a concrete input: a grayscale step is toggled off before any
    image was processed. *)
Lemma toggle_before_any_image :
  rerun grayscale_only = (Ok None, grayscale_only) /\
  toggle_step "step-0" false grayscale_only =
  (Ok true,
   loaded [(grayscale_transform,
            set_enabled false (new_step "step-0" grayscale_transform))]).
Proof.
  assert (find_step (_transforms (self grayscale_only)) "step-0" = Some 0%nat) as Hfind
    by (vm_compute; reflexivity).
  destruct (without_a_source_nothing_runs (RT:=runtime) grayscale_only eq_refl)
    as [Hrerun Htoggle].
  split; [exact Hrerun|].
  exact (Htoggle "step-0" false 0%nat Hfind).
Defined.

(** X14, at a concrete input: the sepia step was run on the grayscale
    image; [rerun] runs on that two-dimensional array again. *)
Lemma sepia_rerun_uses_cached_array :
  _last_image (self sepia_first_run) = Some gray_image /\
  rerun sepia_first_run =
  match process_image gray_image sepia_first_run with
  | (Ok out', st'') => (Ok (Some out'), st'')
  | (Raise, st'') => (Raise, st'')
  end.
Proof.
  assert (fst (process_image gray_image sepia_only)
          = Ok (NdArray [1; 2; 3]%nat [100; 100; 100; 50; 50; 50]%nat)) as Hres
    by (vm_compute; reflexivity).
  destruct (rerun_repeats_the_last_run (RT:=runtime) gray_image sepia_only
              (NdArray [1; 2; 3]%nat [100; 100; 100; 50; 50; 50]%nat)
              sepia_first_run (pair_of_projections _ _ Hres))
    as (src & Hsrc & Hlast & Hrerun).
  injection Hsrc as <-. split; [exact Hlast|exact Hrerun].
Defined.

(** X15, at a concrete input: the sepia step before any run, and after
    a run on the grayscale image. *)
Lemma sepia_second_run_equals_first :
  exists st2',
    process_image gray_image sepia_ran
      = (Ok (NdArray [1; 2; 3]%nat [100; 100; 100; 50; 50; 50]%nat), st2') /\
    pipeline (self st2') = pipeline (self sepia_first_run).
Proof.
  assert (fst (process_image gray_image sepia_only)
          = Ok (NdArray [1; 2; 3]%nat [100; 100; 100; 50; 50; 50]%nat)) as Hres
    by (vm_compute; reflexivity).
  assert (evolves same_entry sepia_only sepia_ran) as Hev.
  { unfold evolves. conjs; try reflexivity.
    constructor; [|constructor]. unfold same_entry, same_config. conjs; reflexivity. }
  destruct (completed_run_forgets_earlier_runs (RT:=runtime) gray_image sepia_only
              sepia_ran (NdArray [1; 2; 3]%nat [100; 100; 100; 50; 50; 50]%nat)
              sepia_first_run Hev eq_refl (pair_of_projections _ _ Hres))
    as (st2' & Hrun & Hpipe & _).
  exists st2'. split; [exact Hrun|exact Hpipe].
Defined.

(** X16, at a concrete input: one disabled grayscale step, run on the
    RGB image. *)
Lemma disabled_grayscale_run_is_identity :
  exists st',
    process_image rgb_image disabled_only = (Ok rgb_image, st') /\
    final_image (self st') = original_image (self st') /\
    rng st' = rng disabled_only.
Proof.
  assert (image_to_base64 rgb_image
          = Some (png_b64 [1; 2; 3]%nat [100; 100; 100; 10; 20; 30]%nat)) as Hb
    by (vm_compute; reflexivity).
  assert (Forall (fun e : Transform * TransformStep => enabled e.2 = false)
            (_transforms (self disabled_only))) as Hall.
  { apply Forall_cons. split; [reflexivity|apply Forall_nil_2]. }
  destruct (run_of_disabled_steps_is_identity (RT:=runtime) rgb_image disabled_only
              rgb_image (png_b64 [1; 2; 3]%nat [100; 100; 100; 10; 20; 30]%nat)
              Hall eq_refl eq_refl Hb)
    as (st' & Hrun & Ho & Hf & _ & _ & Hrng).
  exists st'. split; [exact Hrun|]. split; [by rewrite Ho, Hf|exact Hrng].
Defined.

(** X18, at a concrete input: a raising callback is registered between
    two registrations of the broadcast callback. *)
Lemma noisy_viewer_still_broadcasts :
  _notify_update (mkState noisy_viewer 0%nat []) =
  (Ok tt,
   mkState noisy_viewer 0%nat
     (notify_all
        (set_callbacks ([broadcast_callback] ++ [broadcast_callback])%list fresh_viewer)
        [])).
Proof.
  exact (raising_callback_is_skipped (RT:=runtime) fresh_viewer raising_callback
           [broadcast_callback] [broadcast_callback] 0%nat [] (fun _ _ => eq_refl)).
Defined.

(** X21, at a concrete input: the PNG of the grayscale image is uploaded
    again after the sepia step ran on it. *)
Lemma upload_of_gray_png_is_rerun :
  (upload_image gray_png (serving sepia_ran)).2 = (rerun_pipeline (serving sepia_ran)).2.
Proof.
  assert (gray_png <> "") as Hne by (vm_compute; discriminate).
  exact (proj1 (upload_of_the_original_is_a_rerun (RT:=runtime) (serving sepia_ran)
                  (self sepia_ran) gray_png eq_refl eq_refl Hne)).
Defined.

(** X22, at a concrete input: [POST /api/rerun] after the sepia step ran
    on the grayscale image answers with the snapshot it queued. *)
Lemma rerun_response_is_queued :
  exists p srv',
    rerun_pipeline (serving sepia_ran) = (ApiReturn p, srv') /\
    pending srv' = [p] /\
    (to_dict ∘ pipeline) <$> viewer srv' = Some p.
Proof.
  assert (match fst (rerun_pipeline (serving sepia_ran)) with
          | ApiReturn _ => true
          | _ => false
          end = true) as Hok by (vm_compute; reflexivity).
  pose proof (proj1 (ok_response_is_the_broadcast_snapshot (RT:=runtime)
                       (serving sepia_ran) (self sepia_ran) eq_refl eq_refl)) as H.
  destruct (rerun_pipeline (serving sepia_ran)) as [resp srv'].
  specialize (H resp srv' eq_refl).
  destruct resp as [p| |]; [|discriminate Hok..].
  exists p, srv'. split; [reflexivity|]. split; [exact (proj1 H)|exact (proj2 H)].
Defined.

(** X23, at a concrete input: the sepia step run on the grayscale
    image. *)
Lemma sepia_snapshots_are_linked :
  linked (original_image (self sepia_first_run))
    (steps (pipeline (self sepia_first_run)))
    (final_image (self sepia_first_run)).
Proof.
  assert (fst (process_image gray_image sepia_only)
          = Ok (NdArray [1; 2; 3]%nat [100; 100; 100; 50; 50; 50]%nat)) as Hres
    by (vm_compute; reflexivity).
  exact (proj2 (snapshots_of_a_run_are_linked (RT:=runtime) gray_image sepia_only
                  (NdArray [1; 2; 3]%nat [100; 100; 100; 50; 50; 50]%nat)
                  sepia_first_run (pair_of_projections _ _ Hres))).
Defined.

(** X24, at a concrete input: [keep_channels] of the grayscale step is
    set after a run. *)
Lemma keep_channels_leaves_probability :
  (probability ∘ snd)
    <$> _transforms
          (self (after (update_step_param "step-0" "keep_channels" (VBool false))
                   grayscale_ran))
  = (probability ∘ snd) <$> _transforms (self grayscale_ran).
Proof.
  assert ("keep_channels" <> "p") as Hk by discriminate.
  exact (other_parameters_leave_probability (RT:=runtime) "step-0" "keep_channels"
           (VBool false) grayscale_ran Hk).
Defined.

End Cases.
